(** * Hola Animated PWA: the music search and playback engine of [script.js]

    The repository keeps two revisions of the music section of [script.js]:
    the legacy single player (module [V1]) and the advanced player with a
    mini and a full view (module [V2]).  Both share [searchMusic] word for
    word.  The development embeds the JavaScript as pure functions over an
    explicit player state; what the browser or the network decides
    (fetch responses, [Math.random()] draws, whether [audio.play()] is
    accepted) is passed in as an environment.  Every handler is run to
    completion: what an [await] inside [searchMusic] or [playTrack] waits
    for has been decided by the environment before the next handler runs. *)

From Stdlib Require Import ZArith QArith Qround List String Ascii Bool Lia.
From Stdlib Require Import DecimalString.
Import ListNotations.
Local Open Scope string_scope.
Local Open Scope list_scope.
Local Open Scope Z_scope.
#[local] Set Warnings "-register-all".

(** ** Exceptions

    A JavaScript expression either produces a value or throws.  What is
    thrown is never inspected by the script (every handler only logs it),
    so [Throw] carries no payload. *)

Inductive result (A : Type) : Type :=
| Ok (a : A)
| Throw.
Arguments Ok {A} a.
Arguments Throw {A}.

Definition bind {A B : Type} (c : result A) (k : A -> result B) : result B :=
  match c with
  | Ok a => k a
  | Throw => Throw
  end.

Notation "x <- c ;; k" := (bind c (fun x => k))
  (at level 61, c at next level, right associativity).

(** [try { c } catch (err) { h }] *)
Definition try_catch {A : Type} (c : result A) (h : result A) : result A :=
  match c with
  | Ok a => Ok a
  | Throw => h
  end.

Fixpoint mapM {A B : Type} (f : A -> result B) (l : list A) : result (list B) :=
  match l with
  | [] => Ok []
  | x :: r => y <- f x ;; ys <- mapM f r ;; Ok (y :: ys)
  end.

(** ** JavaScript values as they come out of [res.json()]

    JSON numbers only matter to the script through their truthiness; they
    are kept as integers.  A parsed object is an association list whose
    first binding of a key is the one seen by property access. *)

Inductive jsval : Type :=
| JUndefined
| JNull
| JBool (b : bool)
| JNum (n : Z)
| JStr (s : string)
| JArr (l : list jsval)
| JObj (o : list (string * jsval)).

(** ToBoolean *)
Definition truthy (v : jsval) : bool :=
  match v with
  | JUndefined | JNull => false
  | JBool b => b
  | JNum n => negb (n =? 0)
  | JStr s => negb (String.eqb s "")
  | JArr _ | JObj _ => true
  end.

(** [a || b] on already evaluated operands *)
Definition js_or (a b : jsval) : jsval := if truthy a then a else b.

Fixpoint assoc (k : string) (o : list (string * jsval)) : jsval :=
  match o with
  | [] => JUndefined
  | (k', v) :: r => if String.eqb k k' then v else assoc k r
  end.

(** [v.k] for the property names the script reads ([data], [title],
    [url], ...): none of them is a built-in property of a string, number,
    boolean or array, so only objects answer with something defined, and
    [null] and [undefined] throw a TypeError. *)
Definition get (v : jsval) (k : string) : result jsval :=
  match v with
  | JUndefined | JNull => Throw
  | JObj o => Ok (assoc k o)
  | _ => Ok JUndefined
  end.

Definition isArray (v : jsval) : bool :=
  match v with
  | JArr _ => true
  | _ => false
  end.

(** [v.slice(0, 6)]: arrays and strings have the method, calling it on
    anything else throws. *)
Definition slice06 (v : jsval) : result jsval :=
  match v with
  | JArr l => Ok (JArr (firstn 6 l))
  | JStr s => Ok (JStr (substring 0 6 s))
  | _ => Throw
  end.

(** [v.map(f)]: only arrays have the method. *)
Definition js_map {B : Type} (f : jsval -> result B) (v : jsval) : result (list B) :=
  match v with
  | JArr l => mapM f l
  | _ => Throw
  end.

(** [s.split(sep)] for a separator of at least one character: [skip]
    counts the characters of a separator occurrence still to be dropped and
    [acc] is the piece read so far. *)
Fixpoint split_go (sep : string) (s : string) (skip : nat) (acc : string) : list string :=
  match s with
  | EmptyString => [acc]
  | String c s' =>
      match skip with
      | S k => split_go sep s' k acc
      | O =>
          if prefix sep s
          then acc :: split_go sep s' ((String.length sep - 1)%nat) EmptyString
          else split_go sep s' O (String.append acc (String c EmptyString))
      end
  end.

Definition split (sep s : string) : list string := split_go sep s O EmptyString.

(** [u?.split('v=')[1]]: the optional chain stops on [undefined] and
    [null]; a string is split; any other value has no [split] method. *)
Definition split_v_1 (u : jsval) : result jsval :=
  match u with
  | JUndefined | JNull => Ok JUndefined
  | JStr s =>
      Ok match nth_error (split "v=" s) 1 with
         | Some p => JStr p
         | None => JUndefined
         end
  | _ => Throw
  end.

(** ** The track model *)

Inductive Source : Type := audius | youtube.

Definition Source_eqb (a b : Source) : bool :=
  match a, b with
  | audius, audius | youtube, youtube => true
  | _, _ => false
  end.

(** The object literals built by [searchMusic]; a property the literal
    does not have ([videoId] of an Audius track, [stream] of a YouTube
    one) reads as [JUndefined]. *)
Record Track : Type := mkTrack {
  source : Source;
  title : jsval;
  artist : jsval;
  cover : jsval;
  stream : jsval;
  videoId : jsval
}.

(** What a fetch followed by [res.json()] gives: [fetch] rejects, the
    body is not JSON, or a parsed value. *)
Inductive Response : Type :=
| NetworkError
| InvalidJson
| Json (v : jsval).

Definition json_of (r : Response) : result jsval :=
  match r with
  | Json v => Ok v
  | _ => Throw
  end.

(** The arrow function mapped over the Audius results. *)
Definition audius_track (t : jsval) : result Track :=
  t_title <- get t "title" ;;
  t_user <- get t "user" ;;
  user_name <-
    (if truthy t_user
     then n <- get t_user "name" ;; h <- get t_user "handle" ;; Ok (js_or n h)
     else Ok t_user) ;;
  t_artwork <- get t "artwork" ;;
  art <-
    (if truthy t_artwork
     then a <- get t_artwork "150x150" ;; b <- get t_artwork "480x480" ;; Ok (js_or a b)
     else Ok t_artwork) ;;
  t_stream <- get t "stream" ;;
  url <-
    (if truthy t_stream then get t_stream "url" else Ok t_stream) ;;
  Ok {| source := audius;
        title := js_or t_title (JStr "");
        artist := js_or user_name (JStr "");
        cover := js_or art (JStr "");
        stream := if truthy url then url else JStr "";
        videoId := JUndefined |}.

(** [item.id || item.url?.split('v=')[1] || item.url || ''] *)
Definition video_id (item : jsval) : result jsval :=
  id <- get item "id" ;;
  if truthy id then Ok id
  else
    url <- get item "url" ;;
    part <- split_v_1 url ;;
    Ok (js_or part (js_or url (JStr ""))).

(** The arrow function mapped over the Piped results. *)
Definition youtube_track (item : jsval) : result Track :=
  vid <- video_id item ;;
  i_title <- get item "title" ;;
  i_uploader <- get item "uploader" ;;
  i_thumbnail <- get item "thumbnail" ;;
  Ok {| source := youtube;
        title := js_or i_title (JStr "");
        artist := js_or i_uploader (JStr "");
        cover := js_or i_thumbnail (JStr "");
        stream := JUndefined;
        videoId := vid |}.

(** The body of the first [try] block of [searchMusic]. *)
Definition audiusTracks (r : Response) : result (list Track) :=
  dataAudius <- json_of r ;;
  data <- get dataAudius "data" ;;
  sliced <- slice06 (js_or data (JArr [])) ;;
  mapped <- js_map audius_track sliced ;;
  Ok (filter (fun t => truthy (stream t)) mapped).

(** The body of the second [try] block of [searchMusic]. *)
Definition youtubeTracks (r : Response) : result (list Track) :=
  dataYoutube <- json_of r ;;
  d_items <- get dataYoutube "items" ;;
  let items := js_or d_items dataYoutube in
  if isArray items
  then sliced <- slice06 items ;; js_map youtube_track sliced
  else Ok [].

(** [searchMusic] up to [currentPlaylist = tracks]: [filter] is the value
    of the checked source radio button (['all'] when none is checked),
    [rA] and [rB] are what the two providers answer. *)
Definition search_tracks (filter : string) (rA rB : Response) : result (list Track) :=
  let tracks := [] in
  tracks <-
    (if String.eqb filter "all" || String.eqb filter "audius"
     then try_catch (a <- audiusTracks rA ;; Ok (tracks ++ a)) (Ok tracks)
     else Ok tracks) ;;
  tracks <-
    (if String.eqb filter "all" || String.eqb filter "youtube"
     then try_catch (y <- youtubeTracks rB ;; Ok (tracks ++ y)) (Ok tracks)
     else Ok tracks) ;;
  Ok tracks.

(** What [searchMusic] leaves in the [music-results] element. *)
Inductive ResultsView : Type :=
| Blank
| Searching
| NoResults
| Items (l : list Track).

Definition render (tracks : list Track) : ResultsView :=
  match tracks with
  | [] => NoResults
  | _ => Items tracks
  end.

Definition rendered (v : ResultsView) : list Track :=
  match v with
  | Items l => l
  | _ => []
  end.


(** [t === track] inside [findIndex] compares object identities.  The
    model compares the two records field by field, which gives the same
    index whenever no two playlist entries carry identical fields; the
    lookup only runs while the cursor is negative. *)
Fixpoint jsval_eqb (a b : jsval) : bool :=
  match a, b with
  | JUndefined, JUndefined => true
  | JNull, JNull => true
  | JBool x, JBool y => Bool.eqb x y
  | JNum x, JNum y => x =? y
  | JStr x, JStr y => String.eqb x y
  | JArr l, JArr m =>
      (fix all2 (l m : list jsval) : bool :=
         match l, m with
         | [], [] => true
         | x :: l', y :: m' => jsval_eqb x y && all2 l' m'
         | _, _ => false
         end) l m
  | JObj l, JObj m =>
      (fix all2 (l m : list (string * jsval)) : bool :=
         match l, m with
         | [], [] => true
         | (k, x) :: l', (k', y) :: m' =>
             String.eqb k k' && jsval_eqb x y && all2 l' m'
         | _, _ => false
         end) l m
  | _, _ => false
  end.

Definition Track_eqb (a b : Track) : bool :=
  Source_eqb (source a) (source b)
  && jsval_eqb (title a) (title b)
  && jsval_eqb (artist a) (artist b)
  && jsval_eqb (cover a) (cover b)
  && jsval_eqb (stream a) (stream b)
  && jsval_eqb (videoId a) (videoId b).

(** [l.findIndex(p)], counting from [i] *)
Fixpoint findIndex_from (p : Track -> bool) (l : list Track) (i : Z) : Z :=
  match l with
  | [] => -1
  | t :: r => if p t then i else findIndex_from p r (i + 1)
  end.

Definition findIndex (p : Track -> bool) (l : list Track) : Z :=
  findIndex_from p l 0.

(** [l.length] and [l[i]] for an integer [i]; a negative or too large
    index reads [undefined]. *)
Definition len (l : list Track) : Z := Z.of_nat (List.length l).

Definition at_index (l : list Track) (i : Z) : option Track :=
  if i <? 0 then None else nth_error l (Z.to_nat i).

(** [Math.floor(Math.random() * n)]: the draw [r] is the number
    [Math.random()] returned, a rational in [0, 1); the rounding of the
    floating-point product is not modelled. *)
Definition random_index (r : Q) (n : Z) : Z := Qfloor (r * inject_Z n).

Definition unit_draw (r : Q) : Prop := (0 <= r)%Q /\ (r < 1)%Q.

(** ** The shared audio element *)

Record Audio : Type := mkAudio {
  src : jsval;          (* the value last assigned to [audio.src] *)
  paused : bool;
  currentTime : Q
}.

Definition new_Audio : Audio :=
  {| src := JStr ""; paused := true; currentTime := 0%Q |}.

Definition audio_pause (a : Audio) : Audio :=
  {| src := src a; paused := true; currentTime := currentTime a |}.

Definition audio_set_src (v : jsval) (a : Audio) : Audio :=
  {| src := v; paused := paused a; currentTime := currentTime a |}.

Definition audio_set_currentTime (t : Q) (a : Audio) : Audio :=
  {| src := src a; paused := paused a; currentTime := t |}.

(** [audio.play()]: the element starts playing when the browser accepts
    the request and is left as it was when the returned promise rejects. *)
Definition audio_play (accepted : bool) (a : Audio) : Audio :=
  if accepted
  then {| src := src a; paused := false; currentTime := currentTime a |}
  else a.

(** What the environment decides during one [playTrack] call: the answer
    of the Piped [streams] endpoint and whether [audio.play()] succeeds. *)
Record PlayEnv : Type := mkPlayEnv {
  resolution : Response;
  play_accepted : bool
}.

(** ** The legacy player (first revision of the music section) *)

Module V1.

Inductive PlayIcon : Type := IconPlay | IconPause.      (* '▶' and '⏸' *)
Inductive ToggleLabel : Type := Expandir | Minimizar.   (* '▲' and '▼' *)

(** The parts of the page the player writes to; the elements the script
    looks up are taken to exist. *)
Record View : Type := mkView {
  playerDisplay : string;        (* musicPlayer.style.display *)
  playerExpanded : bool;         (* musicPlayer has class 'expanded' *)
  coverSrc : jsval;
  titleText : jsval;
  artistText : jsval;
  playBtn : PlayIcon;
  toggleBtn : ToggleLabel;
  bottomNavDisplay : string
}.

Record State : Type := mkState {
  currentTrack : option Track;
  currentPlaylist : list Track;
  currentTrackIndex : Z;
  isShuffle : bool;
  isRepeat : bool;
  isPlayerExpanded : bool;
  audio : Audio;
  view : View;
  musicResults : ResultsView
}.

Definition init : State :=
  {| currentTrack := None; currentPlaylist := []; currentTrackIndex := -1;
     isShuffle := false; isRepeat := false; isPlayerExpanded := false;
     audio := new_Audio;
     view := {| playerDisplay := ""; playerExpanded := false;
                coverSrc := JStr ""; titleText := JStr ""; artistText := JStr "";
                playBtn := IconPlay; toggleBtn := Expandir;
                bottomNavDisplay := "" |};
     musicResults := Blank |}.

Definition set_currentTrack (t : option Track) (s : State) : State :=
  mkState t (currentPlaylist s) (currentTrackIndex s) (isShuffle s) (isRepeat s)
          (isPlayerExpanded s) (audio s) (view s) (musicResults s).

Definition set_currentPlaylist (l : list Track) (s : State) : State :=
  mkState (currentTrack s) l (currentTrackIndex s) (isShuffle s) (isRepeat s)
          (isPlayerExpanded s) (audio s) (view s) (musicResults s).

Definition set_currentTrackIndex (i : Z) (s : State) : State :=
  mkState (currentTrack s) (currentPlaylist s) i (isShuffle s) (isRepeat s)
          (isPlayerExpanded s) (audio s) (view s) (musicResults s).

Definition set_isPlayerExpanded (b : bool) (s : State) : State :=
  mkState (currentTrack s) (currentPlaylist s) (currentTrackIndex s) (isShuffle s)
          (isRepeat s) b (audio s) (view s) (musicResults s).

Definition set_audio (a : Audio) (s : State) : State :=
  mkState (currentTrack s) (currentPlaylist s) (currentTrackIndex s) (isShuffle s)
          (isRepeat s) (isPlayerExpanded s) a (view s) (musicResults s).

Definition set_view (v : View) (s : State) : State :=
  mkState (currentTrack s) (currentPlaylist s) (currentTrackIndex s) (isShuffle s)
          (isRepeat s) (isPlayerExpanded s) (audio s) v (musicResults s).

Definition set_musicResults (r : ResultsView) (s : State) : State :=
  mkState (currentTrack s) (currentPlaylist s) (currentTrackIndex s) (isShuffle s)
          (isRepeat s) (isPlayerExpanded s) (audio s) (view s) r.

(** [searchMusic(query)]: the two fetches answer [rA] and [rB]. *)
Definition searchMusic (filter : string) (rA rB : Response) (s : State) : result State :=
  let s := set_musicResults Searching s in
  tracks <- search_tracks filter rA rB ;;
  let s := set_currentPlaylist tracks s in
  Ok (set_musicResults (render tracks) s).

(** [(info.audioStreams || []).find((s) => !s.videoOnly)] *)
Fixpoint find_not_videoOnly (l : list jsval) : result jsval :=
  match l with
  | [] => Ok JUndefined
  | s :: r =>
      v <- get s "videoOnly" ;;
      if truthy v then find_not_videoOnly r else Ok s
  end.

Definition js_find_not_videoOnly (v : jsval) : result jsval :=
  match v with
  | JArr l => find_not_videoOnly l
  | _ => Throw
  end.

(** The [try] block of [playTrack] up to its [if]: the stream that was
    picked, [JUndefined] when [find] found none. *)
Definition pick_stream (r : Response) : result jsval :=
  info <- json_of r ;;
  streams <- get info "audioStreams" ;;
  js_find_not_videoOnly (js_or streams (JArr [])).

(** The url assigned to [audio.src] by the YouTube branch, if any:
    [audioStream && audioStream.url] guards the assignment and the
    [catch] swallows whatever was thrown. *)
Definition resolve (r : Response) : option jsval :=
  match pick_stream r with
  | Ok audioStream =>
      if truthy audioStream
      then match get audioStream "url" with
           | Ok u => if truthy u then Some u else None
           | Throw => None
           end
      else None
  | Throw => None
  end.

Definition playTrack (e : PlayEnv) (track : Track) (s : State) : State :=
  let s := set_currentTrack (Some track) s in
  let s :=
    if currentTrackIndex s <? 0
    then set_currentTrackIndex (findIndex (fun t => Track_eqb t track) (currentPlaylist s)) s
    else s in
  let s :=
    set_view {| playerDisplay := "flex";
                playerExpanded := playerExpanded (view s);
                coverSrc := js_or (cover track) (JStr "icons/icon-192.png");
                titleText := title track;
                artistText := js_or (artist track) (JStr "");
                playBtn := playBtn (view s);
                toggleBtn := toggleBtn (view s);
                bottomNavDisplay := bottomNavDisplay (view s) |} s in
  let s :=
    match source track with
    | audius =>
        set_audio (audio_play (play_accepted e) (audio_set_src (stream track) (audio s))) s
    | youtube =>
        match resolve (resolution e) with
        | Some u => set_audio (audio_play (play_accepted e) (audio_set_src u (audio s))) s
        | None => s
        end
    end in
  set_view {| playerDisplay := playerDisplay (view s);
              playerExpanded := playerExpanded (view s);
              coverSrc := coverSrc (view s);
              titleText := titleText (view s);
              artistText := artistText (view s);
              playBtn := IconPause;
              toggleBtn := toggleBtn (view s);
              bottomNavDisplay := bottomNavDisplay (view s) |} s.

(** The [while] loop of [playNext]: it draws until the index differs from
    the cursor.  [draws] are the numbers [Math.random()] returns from now
    on; [None] means the loop is still running when they are used up. *)
Fixpoint resample (cur n : Z) (draws : list Q) : option Z :=
  match draws with
  | [] => None
  | r :: rest =>
      let nextIndex := random_index r n in
      if nextIndex =? cur then resample cur n rest else Some nextIndex
  end.

Definition playNext (draws : list Q) (e : PlayEnv) (s : State) : option State :=
  if len (currentPlaylist s) =? 0 then Some s
  else
    let next :=
      if isShuffle s
      then
        if len (currentPlaylist s) >? 1
        then resample (currentTrackIndex s) (len (currentPlaylist s)) draws
        else Some (currentTrackIndex s)
      else Some (Z.rem (currentTrackIndex s + 1) (len (currentPlaylist s))) in
    match next with
    | None => None
    | Some i =>
        let s := set_currentTrackIndex i s in
        match at_index (currentPlaylist s) (currentTrackIndex s) with
        | Some nextTrack => Some (playTrack e nextTrack s)
        | None => Some s
        end
    end.

Definition playPrev (e : PlayEnv) (s : State) : State :=
  if len (currentPlaylist s) =? 0 then s
  else
    let s :=
      set_currentTrackIndex
        (Z.rem (currentTrackIndex s - 1 + len (currentPlaylist s))
               (len (currentPlaylist s))) s in
    match at_index (currentPlaylist s) (currentTrackIndex s) with
    | Some prevTrack => playTrack e prevTrack s
    | None => s
    end.

(** The click handler of a rendered result: [index] is the item's
    [data-index] and [track] the entry it was rendered from. *)
Definition clickItem (e : PlayEnv) (index : Z) (track : Track) (s : State) : State :=
  playTrack e track (set_currentTrackIndex index s).

(** The click handlers of [player-shuffle] and [player-repeat]. *)
Definition toggleShuffle (s : State) : State :=
  mkState (currentTrack s) (currentPlaylist s) (currentTrackIndex s)
          (negb (isShuffle s)) (isRepeat s) (isPlayerExpanded s) (audio s)
          (view s) (musicResults s).

Definition toggleRepeat (s : State) : State :=
  mkState (currentTrack s) (currentPlaylist s) (currentTrackIndex s)
          (isShuffle s) (negb (isRepeat s)) (isPlayerExpanded s) (audio s)
          (view s) (musicResults s).

(** The click handler of [player-close]. *)
Definition close (s : State) : State :=
  let s := set_audio (audio_set_currentTime 0%Q (audio_pause (audio s))) s in
  let s := set_view {| playerDisplay := "none";
                       playerExpanded := false;
                       coverSrc := coverSrc (view s);
                       titleText := titleText (view s);
                       artistText := artistText (view s);
                       playBtn := playBtn (view s);
                       toggleBtn := Expandir;
                       bottomNavDisplay := "flex" |} s in
  set_isPlayerExpanded false s.

End V1.

(** ** The advanced player (second revision: mini and full view) *)

Module V2.

(** The parts of the page the player writes to.  The play and pause
    icons are recomputed from [audio.paused] by [updatePlayIcons] on every
    play and pause event and are not stored. *)
Record View : Type := mkView {
  miniHidden : bool;             (* miniPlayer has class 'hidden' *)
  fullHidden : bool;             (* fullPlayer has class 'hidden' *)
  navHidden : bool;              (* .bottom-nav has class 'hidden' *)
  miniTitle : jsval;
  miniArtist : jsval;
  fullTrack : jsval;
  fullArtist : jsval;
  fullCover : jsval
}.

Record State : Type := mkState {
  currentTrack : option Track;
  currentPlaylist : list Track;
  currentTrackIndex : Z;
  isShuffle : bool;
  isRepeat : bool;
  audio : Audio;
  view : View;
  musicResults : ResultsView
}.

Definition set_currentTrack (t : option Track) (s : State) : State :=
  mkState t (currentPlaylist s) (currentTrackIndex s) (isShuffle s) (isRepeat s)
          (audio s) (view s) (musicResults s).

Definition set_currentPlaylist (l : list Track) (s : State) : State :=
  mkState (currentTrack s) l (currentTrackIndex s) (isShuffle s) (isRepeat s)
          (audio s) (view s) (musicResults s).

Definition set_currentTrackIndex (i : Z) (s : State) : State :=
  mkState (currentTrack s) (currentPlaylist s) i (isShuffle s) (isRepeat s)
          (audio s) (view s) (musicResults s).

Definition set_isShuffle (b : bool) (s : State) : State :=
  mkState (currentTrack s) (currentPlaylist s) (currentTrackIndex s) b (isRepeat s)
          (audio s) (view s) (musicResults s).

Definition set_isRepeat (b : bool) (s : State) : State :=
  mkState (currentTrack s) (currentPlaylist s) (currentTrackIndex s) (isShuffle s) b
          (audio s) (view s) (musicResults s).

Definition set_audio (a : Audio) (s : State) : State :=
  mkState (currentTrack s) (currentPlaylist s) (currentTrackIndex s) (isShuffle s)
          (isRepeat s) a (view s) (musicResults s).

Definition set_view (v : View) (s : State) : State :=
  mkState (currentTrack s) (currentPlaylist s) (currentTrackIndex s) (isShuffle s)
          (isRepeat s) (audio s) v (musicResults s).

Definition set_musicResults (r : ResultsView) (s : State) : State :=
  mkState (currentTrack s) (currentPlaylist s) (currentTrackIndex s) (isShuffle s)
          (isRepeat s) (audio s) (view s) r.

(** The state right after the script has run; whether the two players
    start hidden is decided by the page, here they do. *)
Definition init : State :=
  {| currentTrack := None; currentPlaylist := []; currentTrackIndex := -1;
     isShuffle := false; isRepeat := false; audio := new_Audio;
     view := {| miniHidden := true; fullHidden := true; navHidden := false;
                miniTitle := JStr ""; miniArtist := JStr "";
                fullTrack := JStr ""; fullArtist := JStr ""; fullCover := JStr "" |};
     musicResults := Blank |}.

Definition set_visibility (mini full nav : bool) (s : State) : State :=
  set_view {| miniHidden := mini; fullHidden := full; navHidden := nav;
              miniTitle := miniTitle (view s); miniArtist := miniArtist (view s);
              fullTrack := fullTrack (view s); fullArtist := fullArtist (view s);
              fullCover := fullCover (view s) |} s.

Definition showMini (s : State) : State := set_visibility false true false s.

Definition showFull (s : State) : State := set_visibility true false true s.

(** [searchMusic(query)]: the two fetches answer [rA] and [rB]. *)
Definition searchMusic (filter : string) (rA rB : Response) (s : State) : result State :=
  let s := set_musicResults Searching s in
  tracks <- search_tracks filter rA rB ;;
  let s := set_currentPlaylist tracks s in
  Ok (set_musicResults (render tracks) s).

(** [v[0]] *)
Definition index0 (v : jsval) : jsval :=
  match v with
  | JArr l => hd JUndefined l
  | JStr s => match s with
              | EmptyString => JUndefined
              | String c _ => JStr (String c EmptyString)
              end
  | JObj o => assoc "0" o
  | _ => JUndefined
  end.

(** [(data?.audioStreams || [])[0]] *)
Definition pick_stream (r : Response) : result jsval :=
  data <- json_of r ;;
  let streams :=
    match data with
    | JUndefined | JNull => JUndefined
    | _ => match get data "audioStreams" with
           | Ok v => v
           | Throw => JUndefined
           end
    end in
  Ok (index0 (js_or streams (JArr []))).

(** The url assigned to [audio.src] by the YouTube branch; [None] on the
    two paths that log an error and [return]. *)
Definition resolve (r : Response) : option jsval :=
  match pick_stream r with
  | Ok audioStream =>
      if truthy audioStream
      then match get audioStream "url" with
           | Ok u => if truthy u then Some u else None
           | Throw => None
           end
      else None
  | Throw => None
  end.

(** How a call of the async [playTrack] ends: it runs to its last
    statement, it [return]s from the YouTube branch, or its promise
    rejects (reading [track.source] of [undefined]). *)
Inductive Outcome : Type := Played | Aborted | Rejected.

(** [playTrack(track)]; [track] is [None] when the caller passed
    [currentPlaylist[i]] for an [i] outside the playlist. *)
Definition playTrack (e : PlayEnv) (track : option Track) (s : State) : Outcome * State :=
  let s := set_currentTrack track s in
  let s :=
    if currentTrackIndex s <? 0
    then set_currentTrackIndex
           (findIndex (fun t => match track with
                                | Some tr => Track_eqb t tr
                                | None => false
                                end) (currentPlaylist s)) s
    else s in
  let s := set_audio (audio_set_src (JStr "") (audio_pause (audio s))) s in
  match track with
  | None => (Rejected, s)
  | Some tr =>
      let src_to_play :=
        match source tr with
        | youtube => resolve (resolution e)
        | audius => Some (stream tr)
        end in
      match src_to_play with
      | None => (Aborted, s)
      | Some u =>
          let s := set_audio (audio_set_src u (audio s)) s in
          let s :=
            set_view {| miniHidden := miniHidden (view s);
                        fullHidden := fullHidden (view s);
                        navHidden := navHidden (view s);
                        miniTitle := js_or (title tr) (JStr "Sin título");
                        miniArtist := js_or (artist tr) (JStr "");
                        fullTrack := js_or (title tr) (JStr "Sin título");
                        fullArtist := js_or (artist tr) (JStr "");
                        fullCover := if truthy (cover tr) then cover tr
                                     else JStr "icons/icon-512.png" |} s in
          let s := set_audio (audio_play (play_accepted e) (audio s)) s in
          (Played, showMini s)
      end
  end.

(** [draw] is what the one [Math.random()] call returns when shuffle is on. *)
Definition playNext (draw : Q) (e : PlayEnv) (s : State) : State :=
  if len (currentPlaylist s) =? 0 then s
  else
    let s :=
      if isShuffle s
      then set_currentTrackIndex (random_index draw (len (currentPlaylist s))) s
      else set_currentTrackIndex
             (Z.rem (currentTrackIndex s + 1) (len (currentPlaylist s))) s in
    snd (playTrack e (at_index (currentPlaylist s) (currentTrackIndex s)) s).

Definition playPrev (draw : Q) (e : PlayEnv) (s : State) : State :=
  if len (currentPlaylist s) =? 0 then s
  else
    let s :=
      if isShuffle s
      then set_currentTrackIndex (random_index draw (len (currentPlaylist s))) s
      else set_currentTrackIndex
             (Z.rem (currentTrackIndex s - 1 + len (currentPlaylist s))
                    (len (currentPlaylist s))) s in
    snd (playTrack e (at_index (currentPlaylist s) (currentTrackIndex s)) s).

Definition toggleShuffle (s : State) : State := set_isShuffle (negb (isShuffle s)) s.

Definition toggleRepeat (s : State) : State := set_isRepeat (negb (isRepeat s)) s.

(** The click handler of a rendered result: [index] is the item's
    [data-index] and [track] the entry it was rendered from. *)
Definition clickItem (e : PlayEnv) (index : Z) (track : Track) (s : State) : State :=
  snd (playTrack e (Some track) (set_currentTrackIndex index s)).

(** The click handlers of [miniClose] and [fullClose] (the same body). *)
Definition close (s : State) : State :=
  let s := set_audio (audio_set_currentTime 0%Q (audio_pause (audio s))) s in
  set_visibility true true false s.

End V2.

(** ** Running several [next] commands in a row

    After each [playNext] the cursor is recorded; the environments of the
    successive calls are given one per call. *)

Fixpoint V1_next_cursors (es : list (list Q * PlayEnv)) (s : V1.State) : option (list Z) :=
  match es with
  | [] => Some []
  | (draws, e) :: r =>
      match V1.playNext draws e s with
      | None => None
      | Some s' =>
          match V1_next_cursors r s' with
          | None => None
          | Some cs => Some (V1.currentTrackIndex s' :: cs)
          end
      end
  end.

Fixpoint V2_next_cursors (es : list (Q * PlayEnv)) (s : V2.State) : list Z :=
  match es with
  | [] => []
  | (draw, e) :: r =>
      let s' := V2.playNext draw e s in
      V2.currentTrackIndex s' :: V2_next_cursors r s'
  end.

(** The cursors [(c + 1) mod n, (c + 2) mod n, ..., (c + k) mod n]. *)
Definition cyclic_from (c n : Z) (k : nat) : list Z :=
  map (fun i => (c + Z.of_nat i) mod n) (seq 1 k).

(** ** Vocabulary of the statements *)

(** What one provider adds to the playlist: its tracks, or nothing when
    its [try] block threw. *)
Definition contribution (c : result (list Track)) : list Track :=
  match c with
  | Ok l => l
  | Throw => []
  end.

(** [v.k] where it cannot throw ([undefined] for anything but an object). *)
Definition prop (v : jsval) (k : string) : jsval :=
  match v with
  | JObj o => assoc k o
  | _ => JUndefined
  end.

Definition is_object (v : jsval) : Prop :=
  match v with
  | JObj _ => True
  | _ => False
  end.

(** A Piped item the mapping accepts: an object whose [url], when it is
    needed, is absent, [null] or a string. *)
Definition piped_item_ok (item : jsval) : Prop :=
  is_object item
  /\ (truthy (prop item "id") = true
      \/ match prop item "url" with
         | JUndefined | JNull | JStr _ => True
         | _ => False
         end).

(** The test of [.filter((t) => t.stream)]. *)
Definition streamable (t : Track) : bool := truthy (stream t).


(** The test of [.find((s) => !s.videoOnly)] where it cannot throw. *)
Definition not_videoOnly (s : jsval) : bool := negb (truthy (prop s "videoOnly")).

(** The selection rule in the words of the specification: the first
    entry with [videoOnly = false] if present, else the first entry. *)
Definition spec_select_stream (streams : list jsval) : jsval :=
  match find not_videoOnly streams with
  | Some s => s
  | None => hd JUndefined streams
  end.

(** ** The states the players can be in

    One constructor per handler of the page: a search that completes, a
    click on a rendered result, the next, previous, shuffle, repeat and
    close buttons. *)

Inductive V1_reachable : V1.State -> Prop :=
| V1_r_init : V1_reachable V1.init
| V1_r_search s filter rA rB s' :
    V1_reachable s -> V1.searchMusic filter rA rB s = Ok s' -> V1_reachable s'
| V1_r_click s e i t :
    V1_reachable s -> at_index (rendered (V1.musicResults s)) i = Some t ->
    V1_reachable (V1.clickItem e i t s)
| V1_r_next s draws e s' :
    V1_reachable s -> Forall unit_draw draws -> V1.playNext draws e s = Some s' ->
    V1_reachable s'
| V1_r_prev s e :
    V1_reachable s -> V1_reachable (V1.playPrev e s)
| V1_r_shuffle s :
    V1_reachable s -> V1_reachable (V1.toggleShuffle s)
| V1_r_repeat s :
    V1_reachable s -> V1_reachable (V1.toggleRepeat s)
| V1_r_close s :
    V1_reachable s -> V1_reachable (V1.close s).

Inductive V2_reachable : V2.State -> Prop :=
| V2_r_init : V2_reachable V2.init
| V2_r_search s filter rA rB s' :
    V2_reachable s -> V2.searchMusic filter rA rB s = Ok s' -> V2_reachable s'
| V2_r_click s e i t :
    V2_reachable s -> at_index (rendered (V2.musicResults s)) i = Some t ->
    V2_reachable (V2.clickItem e i t s)
| V2_r_next s draw e :
    V2_reachable s -> unit_draw draw -> V2_reachable (V2.playNext draw e s)
| V2_r_prev s draw e :
    V2_reachable s -> unit_draw draw -> V2_reachable (V2.playPrev draw e s)
| V2_r_shuffle s :
    V2_reachable s -> V2_reachable (V2.toggleShuffle s)
| V2_r_repeat s :
    V2_reachable s -> V2_reachable (V2.toggleRepeat s)
| V2_r_showMini s :
    V2_reachable s -> V2_reachable (V2.showMini s)
| V2_r_showFull s :
    V2_reachable s -> V2_reachable (V2.showFull s)
| V2_r_close s :
    V2_reachable s -> V2_reachable (V2.close s).

(** ** Sample data used by the examples *)

Definition a_track (name url : string) : Track :=
  {| source := audius; title := JStr name; artist := JStr "artist";
     cover := JStr ""; stream := JStr url; videoId := JUndefined |}.

Definition y_track (name vid : string) : Track :=
  {| source := youtube; title := JStr name; artist := JStr "uploader";
     cover := JStr ""; stream := JUndefined; videoId := JStr vid |}.

Definition five_tracks : list Track :=
  [a_track "a0" "https://cdn/a0"; a_track "a1" "https://cdn/a1";
   y_track "y2" "id2"; y_track "y3" "id3"; y_track "y4" "id4"].

Definition playing (url : string) : Audio :=
  {| src := JStr url; paused := false; currentTime := 12%Q |}.

(** An environment in which the stream lookup fails and one in which it
    answers a single audio stream. *)
Definition env_offline : PlayEnv :=
  {| resolution := NetworkError; play_accepted := true |}.

Definition env_online : PlayEnv :=
  {| resolution :=
       Json (JObj [("audioStreams",
                    JArr [JObj [("url", JStr "https://proxy/audio");
                                ("videoOnly", JBool false)]])]);
     play_accepted := true |}.

(** Two provider answers: two Audius results and three Piped results. *)
Definition audius_item (name url : string) : jsval :=
  JObj [("title", JStr name); ("user", JObj [("name", JStr "artist")]);
        ("stream", JObj [("url", JStr url)])].

Definition piped_item (name url : string) : jsval :=
  JObj [("url", JStr url); ("title", JStr name); ("uploader", JStr "uploader")].

Definition two_from_audius : Response :=
  Json (JObj [("data", JArr [audius_item "a0" "https://cdn/a0";
                             audius_item "a1" "https://cdn/a1"])]).

Definition three_from_piped : Response :=
  Json (JObj [("items", JArr [piped_item "y2" "/watch?v=id2";
                              piped_item "y3" "/watch?v=id3";
                              piped_item "y4" "/watch?v=id4"])]).

Definition one_from_audius : Response :=
  Json (JObj [("data", JArr [audius_item "a0" "https://cdn/a0"])]).

(** The state a completed search leaves, [s] itself if it threw. *)
Definition V1_after_search (filter : string) (rA rB : Response) (s : V1.State) : V1.State :=
  match V1.searchMusic filter rA rB s with
  | Ok s' => s'
  | Throw => s
  end.

Definition V2_after_search (filter : string) (rA rB : Response) (s : V2.State) : V2.State :=
  match V2.searchMusic filter rA rB s with
  | Ok s' => s'
  | Throw => s
  end.

(** Answers of the Piped [streams] endpoint. *)
Definition stream_entry (url : string) (video_only : bool) : jsval :=
  JObj [("url", JStr url); ("videoOnly", JBool video_only)].

Definition streams_env (streams : list jsval) : PlayEnv :=
  {| resolution := Json (JObj [("audioStreams", JArr streams)]);
     play_accepted := true |}.

(** A video-only entry alone, and one followed by an audio entry. *)
Definition video_only_streams : list jsval :=
  [stream_entry "https://proxy/video" true].

Definition video_first_streams : list jsval :=
  [stream_entry "https://proxy/video" true; stream_entry "https://proxy/audio" false].

(** The legacy and the advanced player on [tracks] with the cursor at [c]. *)
Definition V1_on (tracks : list Track) (c : Z) (shuffle : bool) : V1.State :=
  V1.mkState (at_index tracks c) tracks c shuffle false false
             (playing "https://cdn/now-playing") (V1.view V1.init) (render tracks).

Definition V2_on (tracks : list Track) (c : Z) (shuffle : bool) : V2.State :=
  V2.mkState (at_index tracks c) tracks c shuffle false
             (playing "https://cdn/now-playing") (V2.view V2.init) (render tracks).

(** * The rest of the page's handlers

    What follows models the code around the functions above: the time
    labels, the end-of-track and seek handlers, the play button, and the
    navigation, theme and settings handlers. *)

(** [s] holds no character [c]. *)
Fixpoint no_char (c : ascii) (s : string) : Prop :=
  match s with
  | EmptyString => True
  | String d s' => d <> c /\ no_char c s'
  end.

(** ** Time labels

    A number as the audio element reports it: [audio.duration] is [NaN]
    before the metadata is known and [Infinity] for an unbounded stream;
    every finite double is a rational. *)
Inductive jsnum : Type :=
| NaN
| PosInf
| NegInf
| Fin (q : Q).

(** [String(n)] of an integer, its decimal numeral (JavaScript switches to
    exponent notation at [10^21], beyond any media time). *)
Definition String_of_int (n : Z) : string := NilZero.string_of_int (Z.to_int n).

Fixpoint fill (n : nat) (c : ascii) : string :=
  match n with
  | O => EmptyString
  | S k => String c (fill k c)
  end.

(** [s.padStart(n, c)] for a one-character [c] *)
Definition padStart (n : nat) (c : ascii) (s : string) : string :=
  String.append (fill (n - String.length s) c) s.




(** [formatTime] of the advanced player.  [sec || 0] turns [NaN] into 0;
    [Math.max(0, Math.floor(-Infinity))] is 0; for [Infinity] the minutes
    are [Infinity] and [Infinity % 60] is [NaN]. *)
Definition V2_formatTime (sec : jsnum) : string :=
  match sec with
  | NaN | NegInf => "0:00"
  | PosInf => "Infinity:NaN"
  | Fin q =>
      let s := Z.max 0 (Qfloor q) in
      let m := s / 60 in
      let r := padStart 2 "0" (String_of_int (Z.rem s 60)) in
      String.append (String_of_int m) (String.append ":" r)
  end.

(** ** Progress bars of the advanced player *)

Record Progress : Type := mkProgress {
  miniWidth : Q;          (* miniProgressBar.style.width, in percent *)
  fullWidth : Q;          (* fullProgressBar.style.width, in percent *)
  fullCurrent : string;
  fullTotal : string
}.

(** ToBoolean of a number *)
Definition num_truthy (x : jsnum) : bool :=
  match x with
  | NaN => false
  | Fin q => negb (Qeq_bool q 0)
  | _ => true
  end.

(** [(audio.currentTime / audio.duration) * 100] for a finite position and
    a duration that passed the [!audio.duration] test. *)
Definition percentage (position : Q) (duration : jsnum) : Q :=
  match duration with
  | Fin d => position / d * 100
  | _ => 0
  end.

Definition V2_updateProgress (a : Audio) (duration : jsnum) (p : Progress) : Progress :=
  if negb (num_truthy duration) then p
  else
    {| miniWidth := percentage (currentTime a) duration;
       fullWidth := percentage (currentTime a) duration;
       fullCurrent := V2_formatTime (Fin (currentTime a));
       fullTotal := V2_formatTime duration |}.

(** ** Play button, end of track and seeking *)

Definition V2_togglePlay (accepted : bool) (s : V2.State) : V2.State :=
  if paused (V2.audio s)
  then V2.set_audio (audio_play accepted (V2.audio s)) s
  else V2.set_audio (audio_pause (V2.audio s)) s.

(** [audio.currentTime >= audio.duration - 0.3 && audio.duration] *)
Definition near_end (position : Q) (duration : jsnum) : bool :=
  match duration with
  | Fin d => Qle_bool (d - (3 # 10)) position && negb (Qeq_bool d 0)
  | _ => false
  end.

(** The [timeupdate] listener of the advanced player.  [duration] is what
    [audio.duration] reads when the event fires. *)
Definition V2_onTimeUpdate (duration : jsnum) (draw : Q) (e : PlayEnv)
    (sp : V2.State * Progress) : V2.State * Progress :=
  let (s, p) := sp in
  let p := V2_updateProgress (V2.audio s) duration p in
  if near_end (currentTime (V2.audio s)) duration
  then
    if V2.isRepeat s
    then (V2.set_audio (audio_play (play_accepted e)
                          (audio_set_currentTime 0%Q (V2.audio s))) s, p)
    else (V2.playNext draw e s, p)
  else (s, p).

Definition V1_set_playBtn (i : V1.PlayIcon) (s : V1.State) : V1.State :=
  V1.set_view {| V1.playerDisplay := V1.playerDisplay (V1.view s);
                 V1.playerExpanded := V1.playerExpanded (V1.view s);
                 V1.coverSrc := V1.coverSrc (V1.view s);
                 V1.titleText := V1.titleText (V1.view s);
                 V1.artistText := V1.artistText (V1.view s);
                 V1.playBtn := i;
                 V1.toggleBtn := V1.toggleBtn (V1.view s);
                 V1.bottomNavDisplay := V1.bottomNavDisplay (V1.view s) |} s.

(** The click handler of the legacy play button. *)
Definition V1_onPlayClick (accepted : bool) (s : V1.State) : V1.State :=
  if paused (V1.audio s)
  then V1_set_playBtn V1.IconPause (V1.set_audio (audio_play accepted (V1.audio s)) s)
  else V1_set_playBtn V1.IconPlay (V1.set_audio (audio_pause (V1.audio s)) s).

(** The [ended] listener of the legacy player. *)
Definition V1_onEnded (draws : list Q) (e : PlayEnv) (s : V1.State) : option V1.State :=
  let after :=
    if V1.isRepeat s
    then Some (V1.set_audio (audio_play (play_accepted e)
                               (audio_set_currentTime 0%Q (V1.audio s))) s)
    else if len (V1.currentPlaylist s) >? 0 then V1.playNext draws e s
         else Some s in
  match after with
  | Some s' => Some (V1_set_playBtn V1.IconPause s')
  | None => None
  end.

(** The click handlers of the progress bars (the same body four times):
    the click is at [clientX], the bar starts at [left] and is [width]
    wide.  Assigning a number that is not finite to [audio.currentTime]
    throws; what the element does with a finite one (clamping it to the
    seekable range) is not modelled. *)
Definition seek (clientX left width : Q) (duration : jsnum) (a : Audio) : result Audio :=
  if negb (num_truthy duration) then Ok a
  else
    match duration with
    | Fin d =>
        if Qeq_bool width 0 then Throw
        else Ok (audio_set_currentTime ((clientX - left) / width * d) a)
    | _ => Throw
    end.

Definition V1_seek (clientX left width : Q) (duration : jsnum) (s : V1.State) : result V1.State :=
  a <- seek clientX left width duration (V1.audio s) ;; Ok (V1.set_audio a s).

Definition V2_seek (clientX left width : Q) (duration : jsnum) (s : V2.State) : result V2.State :=
  a <- seek clientX left width duration (V2.audio s) ;; Ok (V2.set_audio a s).



(** The click handler of [player-toggle] (expand or minimise the legacy
    player). *)
Definition V1_onToggle (s : V1.State) : V1.State :=
  let expanded := negb (V1.isPlayerExpanded s) in
  let s := V1.set_isPlayerExpanded expanded s in
  V1.set_view {| V1.playerDisplay := V1.playerDisplay (V1.view s);
                 V1.playerExpanded := expanded;
                 V1.coverSrc := V1.coverSrc (V1.view s);
                 V1.titleText := V1.titleText (V1.view s);
                 V1.artistText := V1.artistText (V1.view s);
                 V1.playBtn := V1.playBtn (V1.view s);
                 V1.toggleBtn := if expanded then V1.Minimizar else V1.Expandir;
                 V1.bottomNavDisplay := if expanded then "none" else "flex" |} s.

(** ** Sessions

    The states a player goes through when every handler of the music
    section may run: those of [V1_reachable] and [V2_reachable] and the
    play button, the end-of-track and seek handlers and the expand
    button. *)

Inductive V1_session : V1.State -> Prop :=
| V1_s_init : V1_session V1.init
| V1_s_search s filter rA rB s' :
    V1_session s -> V1.searchMusic filter rA rB s = Ok s' -> V1_session s'
| V1_s_click s e i t :
    V1_session s -> at_index (rendered (V1.musicResults s)) i = Some t ->
    V1_session (V1.clickItem e i t s)
| V1_s_next s draws e s' :
    V1_session s -> Forall unit_draw draws -> V1.playNext draws e s = Some s' ->
    V1_session s'
| V1_s_prev s e : V1_session s -> V1_session (V1.playPrev e s)
| V1_s_shuffle s : V1_session s -> V1_session (V1.toggleShuffle s)
| V1_s_repeat s : V1_session s -> V1_session (V1.toggleRepeat s)
| V1_s_close s : V1_session s -> V1_session (V1.close s)
| V1_s_toggle s : V1_session s -> V1_session (V1_onToggle s)
| V1_s_play s accepted : V1_session s -> V1_session (V1_onPlayClick accepted s)
| V1_s_ended s draws e s' :
    V1_session s -> Forall unit_draw draws -> V1_onEnded draws e s = Some s' ->
    V1_session s'
| V1_s_seek s clientX left width duration s' :
    V1_session s -> V1_seek clientX left width duration s = Ok s' -> V1_session s'.

Inductive V2_session : V2.State -> Prop :=
| V2_s_init : V2_session V2.init
| V2_s_search s filter rA rB s' :
    V2_session s -> V2.searchMusic filter rA rB s = Ok s' -> V2_session s'
| V2_s_click s e i t :
    V2_session s -> at_index (rendered (V2.musicResults s)) i = Some t ->
    V2_session (V2.clickItem e i t s)
| V2_s_next s draw e :
    V2_session s -> unit_draw draw -> V2_session (V2.playNext draw e s)
| V2_s_prev s draw e :
    V2_session s -> unit_draw draw -> V2_session (V2.playPrev draw e s)
| V2_s_shuffle s : V2_session s -> V2_session (V2.toggleShuffle s)
| V2_s_repeat s : V2_session s -> V2_session (V2.toggleRepeat s)
| V2_s_showMini s : V2_session s -> V2_session (V2.showMini s)
| V2_s_showFull s : V2_session s -> V2_session (V2.showFull s)
| V2_s_close s : V2_session s -> V2_session (V2.close s)
| V2_s_play s accepted : V2_session s -> V2_session (V2_togglePlay accepted s)
| V2_s_timeupdate s p duration draw e :
    V2_session s -> unit_draw draw ->
    V2_session (fst (V2_onTimeUpdate duration draw e (s, p)))
| V2_s_seek s clientX left width duration s' :
    V2_session s -> V2_seek clientX left width duration s = Ok s' -> V2_session s'.

(** What holds of the cursor, the current track and the rendered list
    throughout a session. *)
Definition V1_consistent (s : V1.State) : Prop :=
  -1 <= V1.currentTrackIndex s
  /\ rendered (V1.musicResults s) = V1.currentPlaylist s
  /\ (V1.currentTrack s = None <-> V1.currentTrackIndex s = -1)
  /\ V1.playerExpanded (V1.view s) = V1.isPlayerExpanded s.

Definition V2_consistent (s : V2.State) : Prop :=
  -1 <= V2.currentTrackIndex s
  /\ rendered (V2.musicResults s) = V2.currentPlaylist s
  /\ (V2.currentTrack s = None <-> V2.currentTrackIndex s = -1).

(** The two views of the advanced player are never shown together, and
    the bottom navigation is hidden exactly while the full view is shown. *)
Definition V2_views_exclusive (s : V2.State) : Prop :=
  (V2.miniHidden (V2.view s) = true \/ V2.fullHidden (V2.view s) = true)
  /\ V2.navHidden (V2.view s) = negb (V2.fullHidden (V2.view s)).

(** ** Theme and settings

    The handlers registered before the music section.  [localStorage] is a
    map from keys to strings, a [classList] an ordered set of class names. *)

Definition Storage : Type := string -> option string.

Definition getItem (k : string) (st : Storage) : option string := st k.

Definition setItem (k v : string) (st : Storage) : Storage :=
  fun k' => if String.eqb k' k then Some v else st k'.

Definition contains (c : string) (l : list string) : bool := existsb (String.eqb c) l.

Definition classList_add (c : string) (l : list string) : list string :=
  if contains c l then l else l ++ [c].

Definition classList_remove (c : string) (l : list string) : list string :=
  filter (fun d => negb (String.eqb c d)) l.

(** The part of the page the settings handlers read and write; [beeps]
    counts the click sounds started so far. *)
Record Page : Type := mkPage {
  bodyClasses : list string;            (* document.body.classList *)
  localStorage : Storage;
  animationsChecked : bool;             (* animationsToggle.checked *)
  soundsChecked : bool;                 (* soundsToggle.checked *)
  dpiValue : string;                    (* dpiRange.value *)
  fontValue : string;                   (* fontSelect.value *)
  animationValue : string;              (* animationRange.value *)
  rootStyle : string -> option string;  (* properties set on documentElement.style *)
  beeps : nat
}.

Definition set_bodyClasses (l : list string) (p : Page) : Page :=
  mkPage l (localStorage p) (animationsChecked p) (soundsChecked p) (dpiValue p)
         (fontValue p) (animationValue p) (rootStyle p) (beeps p).

Definition set_localStorage (st : Storage) (p : Page) : Page :=
  mkPage (bodyClasses p) st (animationsChecked p) (soundsChecked p) (dpiValue p)
         (fontValue p) (animationValue p) (rootStyle p) (beeps p).

Definition set_animationsChecked (b : bool) (p : Page) : Page :=
  mkPage (bodyClasses p) (localStorage p) b (soundsChecked p) (dpiValue p)
         (fontValue p) (animationValue p) (rootStyle p) (beeps p).

Definition set_soundsChecked (b : bool) (p : Page) : Page :=
  mkPage (bodyClasses p) (localStorage p) (animationsChecked p) b (dpiValue p)
         (fontValue p) (animationValue p) (rootStyle p) (beeps p).

Definition set_dpiValue (v : string) (p : Page) : Page :=
  mkPage (bodyClasses p) (localStorage p) (animationsChecked p) (soundsChecked p) v
         (fontValue p) (animationValue p) (rootStyle p) (beeps p).

Definition set_fontValue (v : string) (p : Page) : Page :=
  mkPage (bodyClasses p) (localStorage p) (animationsChecked p) (soundsChecked p)
         (dpiValue p) v (animationValue p) (rootStyle p) (beeps p).

Definition set_animationValue (v : string) (p : Page) : Page :=
  mkPage (bodyClasses p) (localStorage p) (animationsChecked p) (soundsChecked p)
         (dpiValue p) (fontValue p) v (rootStyle p) (beeps p).

(** [document.documentElement.style.setProperty(k, v)] *)
Definition setProperty (k v : string) (p : Page) : Page :=
  mkPage (bodyClasses p) (localStorage p) (animationsChecked p) (soundsChecked p)
         (dpiValue p) (fontValue p) (animationValue p)
         (fun k' => if String.eqb k' k then Some v else rootStyle p k') (beeps p).

Definition set_beeps (n : nat) (p : Page) : Page :=
  mkPage (bodyClasses p) (localStorage p) (animationsChecked p) (soundsChecked p)
         (dpiValue p) (fontValue p) (animationValue p) (rootStyle p) n.

(** [playClickSound]: [audio_ok] tells whether the Web Audio calls of the
    [try] block go through. *)
Definition playClickSound (audio_ok : bool) (p : Page) : Page :=
  let soundsPref :=
    match getItem "sounds" (localStorage p) with
    | Some v => if String.eqb v "" then "on" else v
    | None => "on"
    end in
  if negb (String.eqb soundsPref "on") then p
  else if audio_ok then set_beeps (S (beeps p)) p else p.

Inductive Theme : Type := light | dark | glass.

Definition theme_name (t : Theme) : string :=
  match t with
  | light => "light"
  | dark => "dark"
  | glass => "glass"
  end.

Definition theme_class (t : Theme) : string :=
  match t with
  | light => "theme-light"
  | dark => "theme-dark"
  | glass => "theme-glass"
  end.

(** The click handlers of the three theme buttons. *)
Definition onThemeClick (t : Theme) (audio_ok : bool) (p : Page) : Page :=
  let body :=
    match t with
    | light =>
        classList_add "theme-light"
          (classList_remove "theme-glass" (classList_remove "theme-dark" (bodyClasses p)))
    | dark =>
        classList_add "theme-dark"
          (classList_remove "theme-glass" (classList_remove "theme-light" (bodyClasses p)))
    | glass =>
        classList_add "theme-glass"
          (classList_remove "theme-dark" (classList_remove "theme-light" (bodyClasses p)))
    end in
  let p := set_bodyClasses body p in
  let p := set_localStorage (setItem "theme" (theme_name t) (localStorage p)) p in
  playClickSound audio_ok p.

(** The saved theme is applied when the page loads. *)
Definition applySavedTheme (p : Page) : Page :=
  match getItem "theme" (localStorage p) with
  | Some savedTheme =>
      if String.eqb savedTheme "light"
      then set_bodyClasses (classList_add "theme-light" (bodyClasses p)) p
      else if String.eqb savedTheme "dark"
      then set_bodyClasses (classList_add "theme-dark" (bodyClasses p)) p
      else if String.eqb savedTheme "glass"
      then set_bodyClasses (classList_add "theme-glass" (bodyClasses p)) p
      else p
  | None => p
  end.

Definition font_classes : list string :=
  ["font-serif"; "font-cursive"; "font-mono"; "font-fantasy"; "font-elegant"].

Definition applyFontClass (font : string) (body : list string) : list string :=
  let body :=
    classList_remove "font-elegant"
      (classList_remove "font-fantasy"
         (classList_remove "font-mono"
            (classList_remove "font-cursive"
               (classList_remove "font-serif" body)))) in
  if String.eqb font "serif" then classList_add "font-serif" body
  else if String.eqb font "cursive" then classList_add "font-cursive" body
  else if String.eqb font "mono" then classList_add "font-mono" body
  else if String.eqb font "fantasy" then classList_add "font-fantasy" body
  else if String.eqb font "elegant" then classList_add "font-elegant" body
  else body.

(** The [change] listeners; [checked] and [selected] are what the user
    has just set the control to. *)
Definition onAnimationsChange (checked : bool) (p : Page) : Page :=
  let p := set_animationsChecked checked p in
  if checked
  then set_localStorage (setItem "animations" "on" (localStorage p))
         (set_bodyClasses (classList_remove "no-animations" (bodyClasses p)) p)
  else set_localStorage (setItem "animations" "off" (localStorage p))
         (set_bodyClasses (classList_add "no-animations" (bodyClasses p)) p).

Definition onSoundsChange (checked : bool) (p : Page) : Page :=
  let p := set_soundsChecked checked p in
  set_localStorage (setItem "sounds" (if checked then "on" else "off") (localStorage p)) p.

Definition onDpiInput (val : string) (p : Page) : Page :=
  let p := set_dpiValue val p in
  set_localStorage (setItem "dpi" val (localStorage p)) (setProperty "--dpi-scale" val p).

Definition onFontChange (selected : string) (audio_ok : bool) (p : Page) : Page :=
  let p := set_fontValue selected p in
  let p := set_bodyClasses (applyFontClass selected (bodyClasses p)) p in
  let p := set_localStorage (setItem "font" selected (localStorage p)) p in
  playClickSound audio_ok p.

Definition onAnimationInput (val : string) (p : Page) : Page :=
  let p := set_animationValue val p in
  set_localStorage (setItem "animSpeed" val (localStorage p)) (setProperty "--anim-speed" val p).

(** A stored string is truthy when it is not empty. *)
Definition saved (k : string) (p : Page) : option string :=
  match getItem k (localStorage p) with
  | Some v => if String.eqb v "" then None else Some v
  | None => None
  end.

(** What the script does with each saved preference when the page loads. *)
Definition loadAnimations (p : Page) : Page :=
  match getItem "animations" (localStorage p) with
  | Some animationsPref =>
      if String.eqb animationsPref "off"
      then set_bodyClasses (classList_add "no-animations" (bodyClasses p))
             (set_animationsChecked false p)
      else p
  | None => p
  end.

Definition loadSounds (p : Page) : Page :=
  match getItem "sounds" (localStorage p) with
  | Some soundsPref =>
      if String.eqb soundsPref "off" then set_soundsChecked false p else p
  | None => p
  end.

Definition loadDpi (p : Page) : Page :=
  match saved "dpi" p with
  | Some savedDpi => setProperty "--dpi-scale" savedDpi (set_dpiValue savedDpi p)
  | None => p
  end.

Definition loadFont (p : Page) : Page :=
  match saved "font" p with
  | Some savedFont =>
      set_bodyClasses (applyFontClass savedFont (bodyClasses p)) (set_fontValue savedFont p)
  | None => p
  end.

Definition loadAnimSpeed (p : Page) : Page :=
  match saved "animSpeed" p with
  | Some savedSpeed => setProperty "--anim-speed" savedSpeed (set_animationValue savedSpeed p)
  | None => p
  end.

(** The whole load, in the order of the source. *)
Definition loadSettings (p : Page) : Page :=
  loadAnimSpeed (loadFont (loadDpi (loadSounds (loadAnimations (applySavedTheme p))))).

(** Reloading: the page as the HTML delivers it, with the storage a
    previous visit left. *)
Definition reload (html : Page) (previous : Page) : Page :=
  loadSettings (set_localStorage (localStorage previous) html).

(** A page as the HTML delivers it on a first visit (nothing stored, both
    toggles checked). *)
Definition first_visit : Page :=
  mkPage ["app"] (fun _ => None) true true "1" "" "1" (fun _ => None) 0.

(** ** Navigation between the sections

    An element of the document, as far as the navigation handler looks at
    it: its [id], its classes and its [data-section] attribute. *)
Record Element : Type := mkElement {
  el_id : option string;
  el_classes : list string;
  data_section : option string
}.

Definition has_class (c : string) (el : Element) : bool := contains c (el_classes el).

Definition add_class (c : string) (el : Element) : Element :=
  mkElement (el_id el) (classList_add c (el_classes el)) (data_section el).

Definition remove_class (c : string) (el : Element) : Element :=
  mkElement (el_id el) (classList_remove c (el_classes el)) (data_section el).

(** [list.forEach((el) => el.classList.remove('active'))] over the
    elements of class [cls] *)
Definition deactivate (cls : string) (doc : list Element) : list Element :=
  map (fun el => if has_class cls el then remove_class "active" el else el) doc.

Fixpoint update_at (k : nat) (f : Element -> Element) (doc : list Element) : list Element :=
  match doc with
  | [] => []
  | el :: r =>
      match k with
      | O => f el :: r
      | S k' => el :: update_at k' f r
      end
  end.

(** [document.getElementById(id)]: the position of the first element
    with that id; the empty string finds nothing. *)
Fixpoint index_of_id (id : string) (doc : list Element) : option nat :=
  match doc with
  | [] => None
  | el :: r =>
      if match el_id el with
         | Some i => String.eqb i id && negb (String.eqb id "")
         | None => false
         end
      then Some O
      else option_map S (index_of_id id r)
  end.

(** The click handler of the navigation item at position [k] of the
    document, without its click sound.  A missing [data-section] attribute
    reads [null], which [getElementById] looks up as the id "null". *)
Definition navigate (k : nat) (doc : list Element) : list Element :=
  match nth_error doc k with
  | None => doc
  | Some item =>
      let targetId :=
        match data_section item with
        | Some s => s
        | None => "null"
        end in
      let doc := deactivate "nav-item" doc in
      let doc := update_at k (add_class "active") doc in
      let doc := deactivate "section" doc in
      match index_of_id targetId doc with
      | Some j => update_at j (add_class "active") doc
      | None => doc
      end
  end.

(** The handler of the later revisions, which also plays the click sound. *)
Definition onNavClick (k : nat) (audio_ok : bool) (dp : list Element * Page)
  : list Element * Page :=
  (navigate k (fst dp), playClickSound audio_ok (snd dp)).

(** A page of three sections with their navigation items. *)
Definition three_sections : list Element :=
  [mkElement (Some "home") ["section"; "active"] None;
   mkElement (Some "music") ["section"] None;
   mkElement (Some "theme") ["section"] None;
   mkElement None ["nav-item"; "active"] (Some "home");
   mkElement None ["nav-item"] (Some "music");
   mkElement None ["nav-item"] (Some "theme")].

(** What the navigation handler does to the element at position [j],
    when the clicked item is at position [k] and [getElementById] finds
    the element at position [target]. *)
Definition navigate_element (k : nat) (target : option nat) (j : nat) (el : Element)
  : Element :=
  let e1 := if has_class "nav-item" el then remove_class "active" el else el in
  let e2 := if Nat.eqb j k then add_class "active" e1 else e1 in
  let e3 := if has_class "section" e2 then remove_class "active" e2 else e2 in
  match target with
  | Some j0 => if Nat.eqb j j0 then add_class "active" e3 else e3
  | None => e3
  end.

Definition target_of (item : Element) : string :=
  match data_section item with
  | Some s => s
  | None => "null"
  end.

(** * Properties *)

(** ** Arithmetic of the cursor *)

Lemma len_pos (l : list Track) : l <> [] -> 0 < len l.
Proof.
  destruct l as [|t r]; [congruence|]. intros _. unfold len. simpl List.length. lia.
Qed.

Lemma len_nonneg (l : list Track) : 0 <= len l.
Proof. unfold len. lia. Qed.

Lemma rem_next (c n : Z) : -1 <= c -> 0 < n -> Z.rem (c + 1) n = (c + 1) mod n.
Proof. intros Hc Hn. apply Z.rem_mod_nonneg; lia. Qed.

Lemma rem_prev (c n : Z) : -1 <= c -> 0 < n ->
  Z.rem (c - 1 + n) n = (c - 1) mod n.
Proof.
  intros Hc Hn.
  destruct (Z.eq_dec c (-1)) as [->|Hne].
  - destruct (Z.eq_dec n 1) as [->|Hn1]; [reflexivity|].
    rewrite Z.rem_mod_nonneg by lia.
    replace (-1 - 1 + n) with (-1 - 1 + 1 * n) by lia.
    apply Z.mod_add. lia.
  - rewrite Z.rem_mod_nonneg by lia.
    replace (c - 1 + n) with (c - 1 + 1 * n) by lia.
    apply Z.mod_add. lia.
Qed.

Lemma at_index_in_range (l : list Track) (i : Z) :
  0 <= i < len l -> exists t, at_index l i = Some t.
Proof.
  intros [H0 H1]. unfold at_index.
  destruct (Z.ltb_spec i 0); [lia|].
  destruct (nth_error l (Z.to_nat i)) eqn:E; [eauto|].
  apply nth_error_None in E. unfold len in H1. lia.
Qed.

Lemma random_index_range (r : Q) (n : Z) :
  unit_draw r -> 0 < n -> 0 <= random_index r n < n.
Proof.
  intros [H0 H1] Hn. unfold random_index.
  assert (Hn' : (0 < inject_Z n)%Q)
    by (change (inject_Z 0 < inject_Z n)%Q; rewrite <- Zlt_Qlt; exact Hn).
  split.
  - change 0 with (Qfloor 0). apply Qfloor_resp_le.
    apply Qmult_le_0_compat; [exact H0 | apply Qlt_le_weak; exact Hn'].
  - apply Z.lt_nge. intros Hge.
    assert (Hle : (inject_Z n <= r * inject_Z n)%Q).
    { eapply Qle_trans; [|apply Qfloor_le]. rewrite <- Zle_Qle. exact Hge. }
    assert (Hlt : (r * inject_Z n < 1 * inject_Z n)%Q).
    { apply Qmult_lt_compat_r; assumption. }
    rewrite Qmult_1_l in Hlt.
    exact (Qlt_not_le _ _ Hlt Hle).
Qed.

(** ** What [playTrack] leaves alone *)

Lemma V1_playTrack_frame (e : PlayEnv) (t : Track) (s : V1.State) :
  V1.currentPlaylist (V1.playTrack e t s) = V1.currentPlaylist s
  /\ V1.isShuffle (V1.playTrack e t s) = V1.isShuffle s
  /\ V1.currentTrack (V1.playTrack e t s) = Some t
  /\ (0 <= V1.currentTrackIndex s ->
      V1.currentTrackIndex (V1.playTrack e t s) = V1.currentTrackIndex s).
Proof.
  unfold V1.playTrack. cbn [V1.currentTrackIndex V1.set_currentTrack].
  destruct (Z.ltb_spec (V1.currentTrackIndex s) 0) as [Hneg|Hpos];
    destruct (source t); try destruct (V1.resolve (resolution e));
    cbn; repeat split; intros; try reflexivity; lia.
Qed.

Lemma V2_playTrack_frame (e : PlayEnv) (t : option Track) (s : V2.State) :
  V2.currentPlaylist (snd (V2.playTrack e t s)) = V2.currentPlaylist s
  /\ V2.isShuffle (snd (V2.playTrack e t s)) = V2.isShuffle s
  /\ V2.currentTrack (snd (V2.playTrack e t s)) = t
  /\ (0 <= V2.currentTrackIndex s ->
      V2.currentTrackIndex (snd (V2.playTrack e t s)) = V2.currentTrackIndex s).
Proof.
  unfold V2.playTrack. cbn [V2.currentTrackIndex V2.set_currentTrack].
  destruct (Z.ltb_spec (V2.currentTrackIndex s) 0) as [Hneg|Hpos];
    destruct t as [tr|]; try destruct (source tr);
    try destruct (V2.resolve (resolution e));
    cbn; repeat split; intros; try reflexivity; lia.
Qed.

(** ** One [next] or [previous] step with shuffle off *)

Lemma V1_playNext_step (draws : list Q) (e : PlayEnv) (s : V1.State) :
  V1.currentPlaylist s <> [] ->
  V1.isShuffle s = false ->
  -1 <= V1.currentTrackIndex s ->
  exists s',
    V1.playNext draws e s = Some s'
    /\ V1.currentTrackIndex s' = (V1.currentTrackIndex s + 1) mod len (V1.currentPlaylist s)
    /\ V1.currentPlaylist s' = V1.currentPlaylist s
    /\ V1.isShuffle s' = false.
Proof.
  intros Hne Hsh Hc.
  pose proof (len_pos _ Hne) as Hn.
  unfold V1.playNext.
  destruct (Z.eqb_spec (len (V1.currentPlaylist s)) 0) as [E|_]; [lia|].
  rewrite Hsh, rem_next by assumption.
  set (i := (V1.currentTrackIndex s + 1) mod len (V1.currentPlaylist s)).
  assert (Hi : 0 <= i < len (V1.currentPlaylist s)) by (apply Z.mod_pos_bound; exact Hn).
  cbn [V1.currentPlaylist V1.currentTrackIndex V1.set_currentTrackIndex].
  destruct (at_index_in_range _ _ Hi) as [t Ht]. rewrite Ht.
  eexists; split; [reflexivity|].
  destruct (V1_playTrack_frame e t (V1.set_currentTrackIndex i s)) as (Hp & Hs & _ & Hx).
  rewrite Hp, Hs, Hx; cbn; auto. lia.
Qed.

Lemma V1_playPrev_step (e : PlayEnv) (s : V1.State) :
  V1.currentPlaylist s <> [] ->
  -1 <= V1.currentTrackIndex s ->
  V1.currentTrackIndex (V1.playPrev e s)
    = (V1.currentTrackIndex s - 1) mod len (V1.currentPlaylist s)
  /\ V1.currentPlaylist (V1.playPrev e s) = V1.currentPlaylist s
  /\ V1.isShuffle (V1.playPrev e s) = V1.isShuffle s.
Proof.
  intros Hne Hc.
  pose proof (len_pos _ Hne) as Hn.
  unfold V1.playPrev.
  destruct (Z.eqb_spec (len (V1.currentPlaylist s)) 0) as [E|_]; [lia|].
  rewrite rem_prev by assumption.
  set (i := (V1.currentTrackIndex s - 1) mod len (V1.currentPlaylist s)).
  assert (Hi : 0 <= i < len (V1.currentPlaylist s)) by (apply Z.mod_pos_bound; exact Hn).
  cbn [V1.currentPlaylist V1.currentTrackIndex V1.set_currentTrackIndex].
  destruct (at_index_in_range _ _ Hi) as [t Ht]. rewrite Ht.
  destruct (V1_playTrack_frame e t (V1.set_currentTrackIndex i s)) as (Hp & Hs & _ & Hx).
  rewrite Hp, Hs, Hx; cbn; auto. lia.
Qed.

Lemma V2_playNext_step (draw : Q) (e : PlayEnv) (s : V2.State) :
  V2.currentPlaylist s <> [] ->
  V2.isShuffle s = false ->
  -1 <= V2.currentTrackIndex s ->
  V2.currentTrackIndex (V2.playNext draw e s)
    = (V2.currentTrackIndex s + 1) mod len (V2.currentPlaylist s)
  /\ V2.currentPlaylist (V2.playNext draw e s) = V2.currentPlaylist s
  /\ V2.isShuffle (V2.playNext draw e s) = false.
Proof.
  intros Hne Hsh Hc.
  pose proof (len_pos _ Hne) as Hn.
  unfold V2.playNext.
  destruct (Z.eqb_spec (len (V2.currentPlaylist s)) 0) as [E|_]; [lia|].
  rewrite Hsh, rem_next by assumption.
  set (i := (V2.currentTrackIndex s + 1) mod len (V2.currentPlaylist s)).
  assert (Hi : 0 <= i < len (V2.currentPlaylist s)) by (apply Z.mod_pos_bound; exact Hn).
  match goal with |- context [V2.playTrack e ?t ?s0] =>
    destruct (V2_playTrack_frame e t s0) as (Hp & Hs & _ & Hx) end.
  rewrite Hp, Hs, Hx; cbn; auto. lia.
Qed.

Lemma V2_playPrev_step (draw : Q) (e : PlayEnv) (s : V2.State) :
  V2.currentPlaylist s <> [] ->
  V2.isShuffle s = false ->
  -1 <= V2.currentTrackIndex s ->
  V2.currentTrackIndex (V2.playPrev draw e s)
    = (V2.currentTrackIndex s - 1) mod len (V2.currentPlaylist s)
  /\ V2.currentPlaylist (V2.playPrev draw e s) = V2.currentPlaylist s
  /\ V2.isShuffle (V2.playPrev draw e s) = false.
Proof.
  intros Hne Hsh Hc.
  pose proof (len_pos _ Hne) as Hn.
  unfold V2.playPrev.
  destruct (Z.eqb_spec (len (V2.currentPlaylist s)) 0) as [E|_]; [lia|].
  rewrite Hsh, rem_prev by assumption.
  set (i := (V2.currentTrackIndex s - 1) mod len (V2.currentPlaylist s)).
  assert (Hi : 0 <= i < len (V2.currentPlaylist s)) by (apply Z.mod_pos_bound; exact Hn).
  match goal with |- context [V2.playTrack e ?t ?s0] =>
    destruct (V2_playTrack_frame e t s0) as (Hp & Hs & _ & Hx) end.
  rewrite Hp, Hs, Hx; cbn; auto. lia.
Qed.

(** ** Repeated [next] with shuffle off *)

Lemma cyclic_from_cons (c n : Z) (k : nat) :
  cyclic_from c n (S k) = (c + 1) mod n :: cyclic_from ((c + 1) mod n) n k.
Proof.
  unfold cyclic_from. cbn [seq map]. f_equal.
  rewrite <- seq_shift, map_map. apply map_ext. intros i.
  rewrite Zplus_mod_idemp_l. f_equal. lia.
Qed.

Lemma cyclic_from_full (m : nat) :
  cyclic_from 0 (Z.of_nat (S m)) (S m) = map Z.of_nat (seq 1 m) ++ [0].
Proof.
  unfold cyclic_from. rewrite seq_S, map_app. cbn [map]. f_equal.
  - apply map_ext_in. intros i Hi. apply in_seq in Hi.
    apply Z.mod_small. lia.
  - f_equal. replace (0 + Z.of_nat (1 + m)) with (Z.of_nat (S m)) by lia.
    apply Z_mod_same_full.
Qed.

Lemma V1_next_cursors_cyclic (es : list (list Q * PlayEnv)) :
  forall s : V1.State,
    V1.currentPlaylist s <> [] ->
    V1.isShuffle s = false ->
    -1 <= V1.currentTrackIndex s ->
    V1_next_cursors es s
    = Some (cyclic_from (V1.currentTrackIndex s) (len (V1.currentPlaylist s)) (List.length es)).
Proof.
  induction es as [|[draws e] r IH]; intros s Hne Hsh Hc; [reflexivity|].
  cbn [V1_next_cursors List.length].
  destruct (V1_playNext_step draws e s Hne Hsh Hc) as (s' & E & Hi & Hp & Hs).
  rewrite E, IH, Hi, Hp, cyclic_from_cons; [reflexivity | congruence | assumption |].
  rewrite Hi. pose proof (Z.mod_pos_bound (V1.currentTrackIndex s + 1) _ (len_pos _ Hne)). lia.
Qed.

Lemma V2_next_cursors_cyclic (es : list (Q * PlayEnv)) :
  forall s : V2.State,
    V2.currentPlaylist s <> [] ->
    V2.isShuffle s = false ->
    -1 <= V2.currentTrackIndex s ->
    V2_next_cursors es s
    = cyclic_from (V2.currentTrackIndex s) (len (V2.currentPlaylist s)) (List.length es).
Proof.
  induction es as [|[draw e] r IH]; intros s Hne Hsh Hc; [reflexivity|].
  cbn [V2_next_cursors List.length].
  destruct (V2_playNext_step draw e s Hne Hsh Hc) as (Hi & Hp & Hs).
  rewrite IH, Hi, Hp, cyclic_from_cons; [reflexivity | congruence | assumption |].
  rewrite Hi. pose proof (Z.mod_pos_bound (V2.currentTrackIndex s + 1) _ (len_pos _ Hne)). lia.
Qed.

(** C8. With shuffle off and a non-empty playlist, every [playNext] moves
    the cursor to [(cursor + 1) mod length], in the legacy and in the
    advanced player alike; so [k] calls in a row visit
    [(c + 1) mod n, ..., (c + k) mod n], from cursor [0] exactly [length]
    calls visit [1, 2, ..., length - 1] and then come back to [0], and from
    cursor [2] of five tracks three calls give the cursors [3, 4, 0]. *)
Theorem playNext_cyclic_order :
  (forall (s : V1.State) draws e,
      V1.currentPlaylist s <> [] -> V1.isShuffle s = false ->
      -1 <= V1.currentTrackIndex s ->
      exists s', V1.playNext draws e s = Some s'
                 /\ V1.currentTrackIndex s'
                    = (V1.currentTrackIndex s + 1) mod len (V1.currentPlaylist s))
  /\ (forall (s : V2.State) draw e,
      V2.currentPlaylist s <> [] -> V2.isShuffle s = false ->
      -1 <= V2.currentTrackIndex s ->
      V2.currentTrackIndex (V2.playNext draw e s)
      = (V2.currentTrackIndex s + 1) mod len (V2.currentPlaylist s))
  /\ (forall (s : V1.State) es,
      V1.currentPlaylist s <> [] -> V1.isShuffle s = false ->
      -1 <= V1.currentTrackIndex s ->
      V1_next_cursors es s
      = Some (cyclic_from (V1.currentTrackIndex s) (len (V1.currentPlaylist s))
                          (List.length es)))
  /\ (forall (s : V2.State) es,
      V2.currentPlaylist s <> [] -> V2.isShuffle s = false ->
      -1 <= V2.currentTrackIndex s ->
      V2_next_cursors es s
      = cyclic_from (V2.currentTrackIndex s) (len (V2.currentPlaylist s))
                    (List.length es))
  /\ (forall (s : V1.State) es,
      V1.currentPlaylist s <> [] -> V1.isShuffle s = false ->
      V1.currentTrackIndex s = 0 ->
      List.length es = List.length (V1.currentPlaylist s) ->
      V1_next_cursors es s
      = Some (map Z.of_nat (seq 1 (List.length (V1.currentPlaylist s) - 1)) ++ [0]))
  /\ (forall (s : V2.State) es,
      V2.currentPlaylist s <> [] -> V2.isShuffle s = false ->
      V2.currentTrackIndex s = 0 ->
      List.length es = List.length (V2.currentPlaylist s) ->
      V2_next_cursors es s
      = map Z.of_nat (seq 1 (List.length (V2.currentPlaylist s) - 1)) ++ [0])
  /\ (forall (s : V1.State) e1 e2 e3,
      List.length (V1.currentPlaylist s) = 5%nat -> V1.isShuffle s = false ->
      V1.currentTrackIndex s = 2 ->
      V1_next_cursors [e1; e2; e3] s = Some [3; 4; 0])
  /\ (forall (s : V2.State) e1 e2 e3,
      List.length (V2.currentPlaylist s) = 5%nat -> V2.isShuffle s = false ->
      V2.currentTrackIndex s = 2 ->
      V2_next_cursors [e1; e2; e3] s = [3; 4; 0]).
Proof.
  repeat apply conj.
  - intros s draws e Hne Hsh Hc.
    destruct (V1_playNext_step draws e s Hne Hsh Hc) as (s' & E & Hi & _). eauto.
  - intros s draw e Hne Hsh Hc. apply (V2_playNext_step draw e s Hne Hsh Hc).
  - intros s es. apply V1_next_cursors_cyclic.
  - intros s es. apply V2_next_cursors_cyclic.
  - intros s es Hne Hsh Hc Hl.
    rewrite V1_next_cursors_cyclic by (try assumption; lia).
    rewrite Hc, Hl. unfold len.
    destruct (V1.currentPlaylist s) as [|t r]; [congruence|].
    cbn [List.length]. rewrite cyclic_from_full, Nat.sub_1_r. reflexivity.
  - intros s es Hne Hsh Hc Hl.
    rewrite V2_next_cursors_cyclic by (try assumption; lia).
    rewrite Hc, Hl. unfold len.
    destruct (V2.currentPlaylist s) as [|t r]; [congruence|].
    cbn [List.length]. rewrite cyclic_from_full, Nat.sub_1_r. reflexivity.
  - intros s e1 e2 e3 Hl Hsh Hc.
    rewrite V1_next_cursors_cyclic; try assumption.
    + unfold len. rewrite Hl, Hc. reflexivity.
    + intros E. rewrite E in Hl. discriminate.
    + lia.
  - intros s e1 e2 e3 Hl Hsh Hc.
    rewrite V2_next_cursors_cyclic; try assumption.
    + unfold len. rewrite Hl, Hc. reflexivity.
    + intros E. rewrite E in Hl. discriminate.
    + lia.
Qed.

Lemma playNext_cyclic_order_witness :
  V2_next_cursors [(0%Q, env_offline); (0%Q, env_online); (0%Q, env_offline)]
                  (V2_on five_tracks 2 false) = [3; 4; 0]
  /\ V1_next_cursors [([], env_offline); ([], env_online); ([], env_offline)]
                     (V1_on five_tracks 2 false) = Some [3; 4; 0].
Proof.
  destruct playNext_cyclic_order as (_ & _ & _ & _ & _ & _ & H1 & H2).
  split.
  - apply H2; reflexivity.
  - apply H1; reflexivity.
Defined.

(** ** [previous] followed by [next] *)

Lemma prev_next_index (c n : Z) : 0 <= c < n -> ((c - 1) mod n + 1) mod n = c.
Proof.
  intros H. rewrite Zplus_mod_idemp_l.
  replace (c - 1 + 1) with c by lia. apply Z.mod_small. exact H.
Qed.

(** C9. With shuffle off, a non-empty playlist and the cursor on one of
    its tracks, [playPrev] followed by [playNext] brings the cursor back
    to where it was, in both players and whatever the stream lookups of
    the two calls answer. *)
Theorem playPrev_playNext_roundtrip :
  (forall (s : V1.State) e1 draws e2,
      V1.currentPlaylist s <> [] -> V1.isShuffle s = false ->
      0 <= V1.currentTrackIndex s < len (V1.currentPlaylist s) ->
      exists s', V1.playNext draws e2 (V1.playPrev e1 s) = Some s'
                 /\ V1.currentTrackIndex s' = V1.currentTrackIndex s)
  /\ (forall (s : V2.State) d1 e1 d2 e2,
      V2.currentPlaylist s <> [] -> V2.isShuffle s = false ->
      0 <= V2.currentTrackIndex s < len (V2.currentPlaylist s) ->
      V2.currentTrackIndex (V2.playNext d2 e2 (V2.playPrev d1 e1 s))
      = V2.currentTrackIndex s).
Proof.
  split.
  - intros s e1 draws e2 Hne Hsh Hc.
    destruct (V1_playPrev_step e1 s Hne) as (Hi & Hp & Hs); [lia|].
    pose proof (Z.mod_pos_bound (V1.currentTrackIndex s - 1) _ (len_pos _ Hne)) as Hb.
    destruct (V1_playNext_step draws e2 (V1.playPrev e1 s)) as (s' & E & Hi' & _).
    + rewrite Hp. exact Hne.
    + rewrite Hs. exact Hsh.
    + rewrite Hi. lia.
    + exists s'. split; [exact E|].
      rewrite Hi', Hi, Hp. apply prev_next_index. exact Hc.
  - intros s d1 e1 d2 e2 Hne Hsh Hc.
    destruct (V2_playPrev_step d1 e1 s Hne Hsh) as (Hi & Hp & Hs); [lia|].
    pose proof (Z.mod_pos_bound (V2.currentTrackIndex s - 1) _ (len_pos _ Hne)) as Hb.
    destruct (V2_playNext_step d2 e2 (V2.playPrev d1 e1 s)) as (Hi' & _).
    + rewrite Hp. exact Hne.
    + exact Hs.
    + rewrite Hi. lia.
    + rewrite Hi', Hi, Hp. apply prev_next_index. exact Hc.
Qed.

Lemma playPrev_playNext_roundtrip_witness :
  V2.currentTrackIndex
    (V2.playNext 0%Q env_online (V2.playPrev 0%Q env_offline (V2_on five_tracks 0 false)))
  = 0.
Proof.
  apply (proj2 playPrev_playNext_roundtrip (V2_on five_tracks 0 false));
    [discriminate | reflexivity | unfold len; cbn; lia].
Defined.

Example playPrev_from_first_wraps :
  V2.currentTrackIndex (V2.playPrev 0%Q env_offline (V2_on five_tracks 0 false)) = 4.
Proof. reflexivity. Qed.

(** ** [next] with shuffle on *)

Lemma resample_sound (cur n : Z) (draws : list Q) (i : Z) :
  Forall unit_draw draws -> 0 < n ->
  V1.resample cur n draws = Some i -> i <> cur /\ 0 <= i < n.
Proof.
  intros Hd Hn. induction Hd as [|r rest Hr _ IH]; cbn [V1.resample]; [discriminate|].
  destruct (Z.eqb_spec (random_index r n) cur) as [_|Hne]; [exact IH|].
  intros E. injection E as <-. split; [exact Hne | apply random_index_range; assumption].
Qed.



Lemma V2_playNext_shuffle_step (draw : Q) (e : PlayEnv) (s : V2.State) :
  V2.currentPlaylist s <> [] -> V2.isShuffle s = true -> unit_draw draw ->
  V2.currentTrackIndex (V2.playNext draw e s)
  = random_index draw (len (V2.currentPlaylist s)).
Proof.
  intros Hne Hsh Hd. pose proof (len_pos _ Hne) as Hn.
  pose proof (random_index_range _ _ Hd Hn) as Hi.
  unfold V2.playNext.
  destruct (Z.eqb_spec (len (V2.currentPlaylist s)) 0) as [E|_]; [lia|].
  rewrite Hsh.
  match goal with |- context [V2.playTrack e ?t ?s0] =>
    destruct (V2_playTrack_frame e t s0) as (_ & _ & _ & Hx) end.
  rewrite Hx;
    cbn [V2.currentTrackIndex V2.set_currentTrackIndex V2.currentPlaylist];
    [reflexivity | lia].
Qed.

Lemma V2_playPrev_shuffle_step (draw : Q) (e : PlayEnv) (s : V2.State) :
  V2.currentPlaylist s <> [] -> V2.isShuffle s = true -> unit_draw draw ->
  V2.currentTrackIndex (V2.playPrev draw e s)
  = random_index draw (len (V2.currentPlaylist s)).
Proof.
  intros Hne Hsh Hd. pose proof (len_pos _ Hne) as Hn.
  pose proof (random_index_range _ _ Hd Hn) as Hi.
  unfold V2.playPrev.
  destruct (Z.eqb_spec (len (V2.currentPlaylist s)) 0) as [E|_]; [lia|].
  rewrite Hsh.
  match goal with |- context [V2.playTrack e ?t ?s0] =>
    destruct (V2_playTrack_frame e t s0) as (_ & _ & _ & Hx) end.
  rewrite Hx;
    cbn [V2.currentTrackIndex V2.set_currentTrackIndex V2.currentPlaylist];
    [reflexivity | lia].
Qed.

(** C1 (the advanced player). The rewritten [playNext] draws once and
    keeps the draw: on five tracks with the cursor on the first one and a
    draw of [1/10] the cursor stays where it was, although shuffle is on and
    the playlist has more than one track. *)
Theorem V2_playNext_shuffle_keeps_cursor :
  unit_draw (1 # 10)
  /\ 1 < len (V2.currentPlaylist (V2_on five_tracks 0 true))
  /\ V2.isShuffle (V2_on five_tracks 0 true) = true
  /\ V2.currentTrackIndex (V2.playNext (1 # 10) env_online (V2_on five_tracks 0 true))
     = V2.currentTrackIndex (V2_on five_tracks 0 true).
Proof.
  repeat split; try reflexivity; unfold Qle, Qlt; cbn; lia.
Qed.

Example sample_search :
  search_tracks "all" two_from_audius three_from_piped = Ok five_tracks.
Proof. reflexivity. Qed.

(** ** The cursor never drops below [-1] *)

Lemma at_index_some_nonneg (l : list Track) (i : Z) (t : Track) :
  at_index l i = Some t -> 0 <= i.
Proof.
  unfold at_index. destruct (Z.ltb_spec i 0); [discriminate | lia].
Qed.

Lemma V1_searchMusic_frame filter rA rB (s s' : V1.State) :
  V1.searchMusic filter rA rB s = Ok s' ->
  V1.currentTrackIndex s' = V1.currentTrackIndex s
  /\ V1.currentTrack s' = V1.currentTrack s
  /\ V1.musicResults s' = render (V1.currentPlaylist s').
Proof.
  unfold V1.searchMusic. destruct (search_tracks filter rA rB); [|discriminate].
  cbn. intros E. injection E as <-. cbn. auto.
Qed.

Lemma V2_searchMusic_frame filter rA rB (s s' : V2.State) :
  V2.searchMusic filter rA rB s = Ok s' ->
  V2.currentTrackIndex s' = V2.currentTrackIndex s
  /\ V2.currentTrack s' = V2.currentTrack s
  /\ V2.musicResults s' = render (V2.currentPlaylist s').
Proof.
  unfold V2.searchMusic. destruct (search_tracks filter rA rB); [|discriminate].
  cbn. intros E. injection E as <-. cbn. auto.
Qed.

Lemma V1_playNext_cursor_ge (draws : list Q) (e : PlayEnv) (s s' : V1.State) :
  -1 <= V1.currentTrackIndex s -> Forall unit_draw draws ->
  V1.playNext draws e s = Some s' -> -1 <= V1.currentTrackIndex s'.
Proof.
  intros Hc Hd. unfold V1.playNext.
  destruct (Z.eqb_spec (len (V1.currentPlaylist s)) 0) as [_|Hn].
  { intros E. injection E as <-. exact Hc. }
  pose proof (len_nonneg (V1.currentPlaylist s)) as Hn0.
  match goal with |- match ?x with _ => _ end = _ -> _ =>
    assert (Hi : forall i, x = Some i -> -1 <= i) end.
  { intros i. destruct (V1.isShuffle s).
    - destruct (Z.gtb_spec (len (V1.currentPlaylist s)) 1).
      + intros E. apply resample_sound in E; [lia | exact Hd | lia].
      + intros E. injection E as <-. exact Hc.
    - intros E. injection E as <-. rewrite rem_next by lia.
      pose proof (Z.mod_pos_bound (V1.currentTrackIndex s + 1) (len (V1.currentPlaylist s))).
      lia. }
  match goal with |- match ?x with _ => _ end = _ -> _ => destruct x as [i|] end;
    [|discriminate].
  specialize (Hi i eq_refl).
  cbn [V1.currentPlaylist V1.currentTrackIndex V1.set_currentTrackIndex].
  destruct (at_index (V1.currentPlaylist s) i) as [t|] eqn:Ht; intros E; injection E as <-.
  - apply at_index_some_nonneg in Ht.
    destruct (V1_playTrack_frame e t (V1.set_currentTrackIndex i s)) as (_ & _ & _ & Hx).
    rewrite Hx; cbn; lia.
  - cbn. exact Hi.
Qed.

Lemma V1_reachable_cursor (s : V1.State) : V1_reachable s -> -1 <= V1.currentTrackIndex s.
Proof.
  induction 1 as [ | s f rA rB s' _ IH E | s e i t _ IH Ht | s draws e s' _ IH Hd E
                   | s e _ IH | s _ IH | s _ IH | s _ IH ]; try exact IH.
  - cbn. lia.
  - apply V1_searchMusic_frame in E. lia.
  - apply at_index_some_nonneg in Ht. unfold V1.clickItem.
    destruct (V1_playTrack_frame e t (V1.set_currentTrackIndex i s)) as (_ & _ & _ & Hx).
    rewrite Hx; cbn; lia.
  - eapply V1_playNext_cursor_ge; eassumption.
  - destruct (V1.currentPlaylist s) as [|t0 r] eqn:Hp.
    + unfold V1.playPrev. rewrite Hp. cbn. exact IH.
    + destruct (V1_playPrev_step e s) as (Hi & _); [rewrite Hp; discriminate | exact IH |].
      rewrite Hi.
      assert (Hn : 0 < len (V1.currentPlaylist s)) by (apply len_pos; rewrite Hp; discriminate).
      pose proof (Z.mod_pos_bound (V1.currentTrackIndex s - 1) _ Hn). lia.
Qed.

Lemma V2_playNext_in_bounds (draw : Q) (e : PlayEnv) (s : V2.State) :
  V2.currentPlaylist s <> [] -> -1 <= V2.currentTrackIndex s -> unit_draw draw ->
  0 <= V2.currentTrackIndex (V2.playNext draw e s) < len (V2.currentPlaylist s).
Proof.
  intros Hne Hc Hd. pose proof (len_pos _ Hne) as Hn.
  destruct (V2.isShuffle s) eqn:Hsh.
  - rewrite V2_playNext_shuffle_step by assumption. apply random_index_range; assumption.
  - destruct (V2_playNext_step draw e s Hne Hsh Hc) as (-> & _).
    apply Z.mod_pos_bound. exact Hn.
Qed.

Lemma V2_playPrev_in_bounds (draw : Q) (e : PlayEnv) (s : V2.State) :
  V2.currentPlaylist s <> [] -> -1 <= V2.currentTrackIndex s -> unit_draw draw ->
  0 <= V2.currentTrackIndex (V2.playPrev draw e s) < len (V2.currentPlaylist s).
Proof.
  intros Hne Hc Hd. pose proof (len_pos _ Hne) as Hn.
  destruct (V2.isShuffle s) eqn:Hsh.
  - rewrite V2_playPrev_shuffle_step by assumption. apply random_index_range; assumption.
  - destruct (V2_playPrev_step draw e s Hne Hsh Hc) as (-> & _).
    apply Z.mod_pos_bound. exact Hn.
Qed.

Lemma V2_reachable_cursor (s : V2.State) : V2_reachable s -> -1 <= V2.currentTrackIndex s.
Proof.
  induction 1 as [ | s f rA rB s' _ IH E | s e i t _ IH Ht | s d e _ IH Hd
                   | s d e _ IH Hd | s _ IH | s _ IH | s _ IH | s _ IH | s _ IH ];
    try exact IH.
  - cbn. lia.
  - apply V2_searchMusic_frame in E. lia.
  - apply at_index_some_nonneg in Ht. unfold V2.clickItem.
    destruct (V2_playTrack_frame e (Some t) (V2.set_currentTrackIndex i s)) as (_ & _ & _ & Hx).
    rewrite Hx; cbn; lia.
  - destruct (V2.currentPlaylist s) as [|t0 r] eqn:Hp.
    + unfold V2.playNext. rewrite Hp. cbn. exact IH.
    + pose proof (V2_playNext_in_bounds d e s) as Hb. rewrite Hp in Hb.
      specialize (Hb ltac:(discriminate) IH Hd). lia.
  - destruct (V2.currentPlaylist s) as [|t0 r] eqn:Hp.
    + unfold V2.playPrev. rewrite Hp. cbn. exact IH.
    + pose proof (V2_playPrev_in_bounds d e s) as Hb. rewrite Hp in Hb.
      specialize (Hb ltac:(discriminate) IH Hd). lia.
Qed.

(** ** The cursor after [next] and [previous] *)





Example V1_shuffled_single_result_reachable :
  V1_reachable (V1.toggleShuffle (V1_after_search "all" one_from_audius NetworkError V1.init)).
Proof.
  apply V1_r_shuffle.
  apply (V1_r_search V1.init "all" one_from_audius NetworkError); [apply V1_r_init | reflexivity].
Qed.

(** ** The search aggregator *)

Lemma bind_Ok_inv {A B : Type} (c : result A) (k : A -> result B) (b : B) :
  bind c k = Ok b -> exists a, c = Ok a /\ k a = Ok b.
Proof. destruct c as [a|]; cbn; [eauto | discriminate]. Qed.

Ltac inv_bind H :=
  let a := fresh "v" in
  let E := fresh "E" in
  apply bind_Ok_inv in H; destruct H as (a & E & H).

Lemma mapM_length {A B : Type} (f : A -> result B) (l : list A) :
  forall l', mapM f l = Ok l' -> List.length l' = List.length l.
Proof.
  induction l as [|x r IH]; cbn [mapM]; intros l' H.
  - injection H as <-. reflexivity.
  - inv_bind H. inv_bind H. injection H as <-. cbn. f_equal. apply IH. assumption.
Qed.

Lemma mapM_Forall {A B : Type} (f : A -> result B) (P : B -> Prop) :
  (forall x y, f x = Ok y -> P y) ->
  forall l l', mapM f l = Ok l' -> Forall P l'.
Proof.
  intros Hf. induction l as [|x r IH]; cbn [mapM]; intros l' H.
  - injection H as <-. constructor.
  - inv_bind H. inv_bind H. injection H as <-. constructor; eauto.
Qed.


Lemma audius_track_source (t : jsval) (tr : Track) :
  audius_track t = Ok tr -> source tr = audius.
Proof.
  unfold audius_track. intros H.
  do 7 inv_bind H. injection H as <-. reflexivity.
Qed.

Lemma youtube_track_source (item : jsval) (tr : Track) :
  youtube_track item = Ok tr -> source tr = youtube.
Proof.
  unfold youtube_track. intros H.
  do 4 inv_bind H. injection H as <-. reflexivity.
Qed.

Lemma search_tracks_all (rA rB : Response) :
  search_tracks "all" rA rB
  = Ok (contribution (audiusTracks rA) ++ contribution (youtubeTracks rB)).
Proof.
  unfold search_tracks. cbn.
  destruct (audiusTracks rA) as [a|]; destruct (youtubeTracks rB) as [y|]; cbn;
    rewrite ?app_nil_r; reflexivity.
Qed.


Lemma V1_searchMusic_Ok (filter : string) (rA rB : Response) (s : V1.State) (l : list Track) :
  search_tracks filter rA rB = Ok l ->
  exists s', V1.searchMusic filter rA rB s = Ok s'
             /\ V1.currentPlaylist s' = l /\ V1.musicResults s' = render l.
Proof. intros E. unfold V1.searchMusic. rewrite E. cbn. eauto. Qed.

Lemma V2_searchMusic_Ok (filter : string) (rA rB : Response) (s : V2.State) (l : list Track) :
  search_tracks filter rA rB = Ok l ->
  exists s', V2.searchMusic filter rA rB s = Ok s'
             /\ V2.currentPlaylist s' = l /\ V2.musicResults s' = render l.
Proof. intros E. unfold V2.searchMusic. rewrite E. cbn. eauto. Qed.

Lemma audiusTracks_Ok (bodyA : jsval) (A : list jsval) (ta : list Track) :
  get bodyA "data" = Ok (JArr A) ->
  mapM audius_track (firstn 6 A) = Ok ta ->
  audiusTracks (Json bodyA) = Ok (filter streamable ta).
Proof.
  intros Hd Hm. unfold audiusTracks. cbn [json_of bind]. rewrite Hd.
  cbn [bind js_or truthy slice06 js_map]. rewrite Hm. reflexivity.
Qed.

Lemma youtubeTracks_Ok (bodyB : jsval) (B : list jsval) (tb : list Track) :
  bodyB = JArr B \/ get bodyB "items" = Ok (JArr B) ->
  mapM youtube_track (firstn 6 B) = Ok tb ->
  youtubeTracks (Json bodyB) = Ok tb.
Proof.
  intros [-> | Hi] Hm; unfold youtubeTracks; cbn [json_of bind].
  - cbn [get bind js_or truthy isArray slice06 js_map]. rewrite Hm. reflexivity.
  - rewrite Hi. cbn [bind js_or truthy isArray slice06 js_map]. rewrite Hm. reflexivity.
Qed.

Lemma get_truthy (v : jsval) (k : string) :
  truthy v = true -> get v k = Ok (prop v k).
Proof. destruct v; cbn; congruence. Qed.

(** Every result that is a JSON object is mapped to a track. *)
Lemma audius_track_total (t : jsval) :
  is_object t -> exists tr, audius_track t = Ok tr.
Proof.
  destruct t as [| | | | | |o]; cbn [is_object]; try contradiction. intros _.
  unfold audius_track. cbn [get bind].
  destruct (truthy (assoc "user" o)) eqn:Eu;
    destruct (truthy (assoc "artwork" o)) eqn:Ea;
    destruct (truthy (assoc "stream" o)) eqn:Es;
    rewrite ?(get_truthy _ _ Eu), ?(get_truthy _ _ Ea), ?(get_truthy _ _ Es);
    cbn [bind]; eauto.
Qed.

Lemma mapM_total {A B : Type} (f : A -> result B) (l : list A) :
  Forall (fun x => exists y, f x = Ok y) l -> exists l', mapM f l = Ok l'.
Proof.
  induction 1 as [|x r [y Hy] _ [l' Hl']]; cbn [mapM]; [eauto|].
  rewrite Hy, Hl'. cbn. eauto.
Qed.

Lemma map_source_const (s0 : Source) (l : list Track) :
  Forall (fun t => source t = s0) l -> map source l = repeat s0 (List.length l).
Proof.
  induction 1 as [|t r Ht _ IH]; cbn; [reflexivity|]. rewrite Ht, IH. reflexivity.
Qed.

Lemma Forall_filter_weaken (P : Track -> Prop) (f : Track -> bool) (l : list Track) :
  Forall P l -> Forall P (filter f l).
Proof.
  intros H. apply Forall_forall. intros t Ht. apply filter_In in Ht.
  destruct Ht as [Ht _]. revert t Ht. apply Forall_forall. exact H.
Qed.

Lemma youtube_track_total (item : jsval) :
  piped_item_ok item -> exists tr, youtube_track item = Ok tr.
Proof.
  destruct item as [| | | | | |o]; intros [Ho Hu]; try contradiction. cbn [prop] in Hu.
  unfold youtube_track, video_id. cbn [get bind].
  destruct (truthy (assoc "id" o)); cbn [bind]; [eauto|].
  destruct Hu as [Hu | Hu]; [discriminate|].
  destruct (assoc "url" o); try contradiction; cbn [split_v_1 bind]; eauto.
Qed.

Lemma Forall_take {A : Type} (P : A -> Prop) (n : nat) :
  forall l, Forall P l -> Forall P (firstn n l).
Proof.
  induction n as [|n IH]; intros l H; [constructor|].
  destruct H as [|x r Hx Hr]; cbn [firstn]; constructor; auto.
Qed.

(** Answers made of well-formed entries are mapped entry by entry. *)
Lemma well_formed_answers_map (A B : list jsval) :
  Forall is_object A -> Forall piped_item_ok B ->
  exists ta tb,
    mapM audius_track (firstn 6 A) = Ok ta /\ mapM youtube_track (firstn 6 B) = Ok tb.
Proof.
  intros HA HB.
  destruct (mapM_total audius_track (firstn 6 A)) as [ta Hta].
  { apply Forall_take. revert HA. apply Forall_impl. exact audius_track_total. }
  destruct (mapM_total youtube_track (firstn 6 B)) as [tb Htb].
  { apply Forall_take. revert HB. apply Forall_impl. exact youtube_track_total. }
  eauto.
Qed.

(** C6. With the filter on "all", when Audius answers an array [A] and
    Piped an array [B] (bare or under [items]) whose first six entries map
    to the tracks [ta] and [tb]: the playlist installed by [searchMusic] is
    the tracks of [ta] that pass the stream filter followed by [tb]; [ta]
    has [min(a, 6)] entries and [tb] has [min(b, 6)]; the first part is all
    Audius and the second all YouTube; when every Audius entry has a stream
    url nothing is filtered, so that two Audius and three Piped results give
    five entries, Audius at indices 0-1 and YouTube at indices 2-4. *)
Theorem searchMusic_all_provider_order
    (bodyA bodyB : jsval) (A B : list jsval) (ta tb : list Track) :
  get bodyA "data" = Ok (JArr A) ->
  (bodyB = JArr B \/ get bodyB "items" = Ok (JArr B)) ->
  mapM audius_track (firstn 6 A) = Ok ta ->
  mapM youtube_track (firstn 6 B) = Ok tb ->
  search_tracks "all" (Json bodyA) (Json bodyB) = Ok (filter streamable ta ++ tb)
  /\ (forall s : V1.State,
         exists s', V1.searchMusic "all" (Json bodyA) (Json bodyB) s = Ok s'
                    /\ V1.currentPlaylist s' = filter streamable ta ++ tb)
  /\ (forall s : V2.State,
         exists s', V2.searchMusic "all" (Json bodyA) (Json bodyB) s = Ok s'
                    /\ V2.currentPlaylist s' = filter streamable ta ++ tb)
  /\ List.length ta = Nat.min (List.length A) 6
  /\ List.length tb = Nat.min (List.length B) 6
  /\ Forall (fun t => source t = audius) (filter streamable ta)
  /\ Forall (fun t => source t = youtube) tb
  /\ (List.length (filter streamable ta) <= Nat.min (List.length A) 6)%nat
  /\ (forallb streamable ta = true ->
      filter streamable ta = ta
      /\ List.length (filter streamable ta ++ tb)
         = (Nat.min (List.length A) 6 + Nat.min (List.length B) 6)%nat)
  /\ (forallb streamable ta = true ->
      List.length A = 2%nat -> List.length B = 3%nat ->
      List.length (filter streamable ta ++ tb) = 5%nat
      /\ map source (filter streamable ta ++ tb)
         = [audius; audius; youtube; youtube; youtube]).
Proof.
  intros Hd Hb Ha Hy.
  assert (Hs : search_tracks "all" (Json bodyA) (Json bodyB)
               = Ok (filter streamable ta ++ tb)).
  { rewrite search_tracks_all, (audiusTracks_Ok _ _ _ Hd Ha), (youtubeTracks_Ok _ _ _ Hb Hy).
    reflexivity. }
  assert (Hla : List.length ta = Nat.min (List.length A) 6).
  { rewrite (mapM_length _ _ _ Ha), length_firstn. apply Nat.min_comm. }
  assert (Hlb : List.length tb = Nat.min (List.length B) 6).
  { rewrite (mapM_length _ _ _ Hy), length_firstn. apply Nat.min_comm. }
  assert (Hsa : Forall (fun t => source t = audius) ta)
    by (eapply mapM_Forall; [apply audius_track_source | exact Ha]).
  assert (Hsy : Forall (fun t => source t = youtube) tb)
    by (eapply mapM_Forall; [apply youtube_track_source | exact Hy]).
  split; [exact Hs|].
  split; [intros s; destruct (V1_searchMusic_Ok _ _ _ s _ Hs) as (s' & E & Hp & _); eauto|].
  split; [intros s; destruct (V2_searchMusic_Ok _ _ _ s _ Hs) as (s' & E & Hp & _); eauto|].
  split; [exact Hla|]. split; [exact Hlb|].
  split; [apply Forall_filter_weaken; exact Hsa|]. split; [exact Hsy|].
  split; [rewrite <- Hla; apply filter_length_le|].
  split.
  - intros Hall. rewrite (forallb_filter_id _ _ Hall), length_app, Hla, Hlb. auto.
  - intros Hall H2 H3. rewrite (forallb_filter_id _ _ Hall).
    rewrite H2 in Hla. rewrite H3 in Hlb. cbn in Hla, Hlb.
    rewrite length_app, Hla, Hlb, map_app.
    rewrite (map_source_const _ _ Hsa), (map_source_const _ _ Hsy), Hla, Hlb.
    split; reflexivity.
Qed.

Lemma searchMusic_all_provider_order_witness :
  search_tracks "all" two_from_audius three_from_piped = Ok five_tracks
  /\ map source five_tracks = [audius; audius; youtube; youtube; youtube].
Proof.
  pose proof (searchMusic_all_provider_order
                (JObj [("data", JArr [audius_item "a0" "https://cdn/a0";
                                      audius_item "a1" "https://cdn/a1"])])
                (JObj [("items", JArr [piped_item "y2" "/watch?v=id2";
                                       piped_item "y3" "/watch?v=id3";
                                       piped_item "y4" "/watch?v=id4"])])
                [audius_item "a0" "https://cdn/a0"; audius_item "a1" "https://cdn/a1"]
                [piped_item "y2" "/watch?v=id2"; piped_item "y3" "/watch?v=id3";
                 piped_item "y4" "/watch?v=id4"]
                [a_track "a0" "https://cdn/a0"; a_track "a1" "https://cdn/a1"]
                [y_track "y2" "id2"; y_track "y3" "id3"; y_track "y4" "id4"]
                eq_refl (or_intror eq_refl) eq_refl eq_refl) as H.
  destruct H as (H1 & _ & _ & _ & _ & _ & _ & _ & _ & H2).
  split.
  - exact H1.
  - apply (H2 eq_refl eq_refl eq_refl).
Defined.

(** ** Failure of one provider *)

Example audius_null_body : audiusTracks (Json JNull) = Throw.
Proof. reflexivity. Qed.

Example audius_data_not_an_array :
  audiusTracks (Json (JObj [("data", JObj [("total", JNum 3)])])) = Throw.
Proof. reflexivity. Qed.

Example audius_null_entry :
  audiusTracks (Json (JObj [("data", JArr [audius_item "a0" "https://cdn/a0"; JNull])]))
  = Throw.
Proof. reflexivity. Qed.

Example piped_url_not_a_string :
  youtubeTracks (Json (JArr [JObj [("url", JNum 7)]])) = Throw.
Proof. reflexivity. Qed.



(** ** Stream references of the rendered tracks *)

Lemma rendered_render (l : list Track) : rendered (render l) = l.
Proof. destruct l; reflexivity. Qed.

Lemma audiusTracks_streamable (r : Response) (l : list Track) :
  audiusTracks r = Ok l ->
  Forall (fun t => source t = audius /\ truthy (stream t) = true) l.
Proof.
  unfold audiusTracks. intros H. do 4 inv_bind H. injection H as <-.
  destruct v1 as [| | | | |items|]; try discriminate. cbn [js_map] in E2.
  apply Forall_forall. intros t Ht. apply filter_In in Ht. destruct Ht as [Ht Hs].
  split; [|exact Hs].
  pose proof (mapM_Forall _ _ audius_track_source _ _ E2) as Hall.
  rewrite Forall_forall in Hall. apply Hall. exact Ht.
Qed.

Lemma youtubeTracks_mapped (r : Response) (l : list Track) :
  youtubeTracks r = Ok l ->
  Forall (fun t => source t = youtube /\ exists item, youtube_track item = Ok t) l.
Proof.
  unfold youtubeTracks. intros H. do 2 inv_bind H.
  destruct (isArray (js_or v0 v)).
  - inv_bind H. destruct v1 as [| | | | |items|]; try discriminate. cbn [js_map] in H.
    eapply mapM_Forall; [|exact H]. intros x y Hxy.
    split; [eapply youtube_track_source; exact Hxy | eauto].
  - injection H as <-. constructor.
Qed.






(** ** Resolving a YouTube track *)

Lemma find_not_videoOnly_objects (l : list jsval) :
  Forall is_object l ->
  V1.find_not_videoOnly l
  = Ok match find not_videoOnly l with
       | Some st => st
       | None => JUndefined
       end.
Proof.
  induction 1 as [|st r Hst _ IH]; [reflexivity|].
  destruct st as [| | | | | |o]; try contradiction.
  cbn [V1.find_not_videoOnly get bind find]. unfold not_videoOnly at 1. cbn [prop].
  destruct (truthy (assoc "videoOnly" o)); cbn [negb]; [exact IH | reflexivity].
Qed.

Lemma V1_resolve_of_pick (r : Response) (picked : jsval) :
  V1.pick_stream r = Ok picked ->
  V1.resolve r = if truthy (prop picked "url") then Some (prop picked "url") else None.
Proof.
  intros E. unfold V1.resolve. rewrite E.
  destruct picked as [| |b|n|x|x|x]; cbn; try reflexivity;
    match goal with |- context [if ?c then _ else _] => destruct c; reflexivity end.
Qed.

Lemma V2_resolve_of_pick (r : Response) (picked : jsval) :
  V2.pick_stream r = Ok picked ->
  V2.resolve r = if truthy (prop picked "url") then Some (prop picked "url") else None.
Proof.
  intros E. unfold V2.resolve. rewrite E.
  destruct picked as [| |b|n|x|x|x]; cbn; try reflexivity;
    match goal with |- context [if ?c then _ else _] => destruct c; reflexivity end.
Qed.

Lemma V1_playTrack_audio (e : PlayEnv) (tr : Track) (s : V1.State) :
  source tr = youtube ->
  V1.audio (V1.playTrack e tr s)
  = match V1.resolve (resolution e) with
    | Some u => audio_play (play_accepted e) (audio_set_src u (V1.audio s))
    | None => V1.audio s
    end.
Proof.
  intros Hs. unfold V1.playTrack. rewrite Hs.
  cbn [V1.currentTrackIndex V1.set_currentTrack].
  destruct (V1.currentTrackIndex s <? 0); destruct (V1.resolve (resolution e)); reflexivity.
Qed.

Lemma V2_playTrack_youtube (e : PlayEnv) (tr : Track) (s : V2.State) :
  source tr = youtube ->
  match V2.resolve (resolution e) with
  | Some u =>
      fst (V2.playTrack e (Some tr) s) = V2.Played
      /\ V2.audio (snd (V2.playTrack e (Some tr) s))
         = audio_play (play_accepted e)
             (audio_set_src u (audio_set_src (JStr "") (audio_pause (V2.audio s))))
  | None =>
      fst (V2.playTrack e (Some tr) s) = V2.Aborted
      /\ V2.audio (snd (V2.playTrack e (Some tr) s))
         = audio_set_src (JStr "") (audio_pause (V2.audio s))
      /\ V2.view (snd (V2.playTrack e (Some tr) s)) = V2.view s
  end.
Proof.
  intros Hs. unfold V2.playTrack. rewrite Hs.
  cbn [V2.currentTrackIndex V2.set_currentTrack].
  destruct (V2.currentTrackIndex s <? 0); destruct (V2.resolve (resolution e));
    cbn; auto.
Qed.

(** C2, amended. For an answer whose [audioStreams] is the array [l]: the
    legacy player picks the first entry whose [videoOnly] is falsy and
    picks nothing when there is none (all entries being objects); the
    advanced player picks the first entry of [l] whatever its [videoOnly]
    says.  In both, the picked entry's [url] becomes the audio source when
    it is non-empty; otherwise the legacy player leaves the audio element
    untouched and the advanced player stops with an empty source. *)
Theorem playTrack_stream_selection :
  (forall body l,
      get body "audioStreams" = Ok (JArr l) -> Forall is_object l ->
      V1.pick_stream (Json body)
      = Ok match find not_videoOnly l with
           | Some st => st
           | None => JUndefined
           end)
  /\ (forall body l,
      get body "audioStreams" = Ok (JArr l) ->
      V2.pick_stream (Json body) = Ok (hd JUndefined l))
  /\ (forall e tr (s : V1.State) picked,
      source tr = youtube -> V1.pick_stream (resolution e) = Ok picked ->
      V1.audio (V1.playTrack e tr s)
      = if truthy (prop picked "url")
        then audio_play (play_accepted e) (audio_set_src (prop picked "url") (V1.audio s))
        else V1.audio s)
  /\ (forall e tr (s : V2.State) picked,
      source tr = youtube -> V2.pick_stream (resolution e) = Ok picked ->
      if truthy (prop picked "url")
      then fst (V2.playTrack e (Some tr) s) = V2.Played
           /\ src (V2.audio (snd (V2.playTrack e (Some tr) s))) = prop picked "url"
      else fst (V2.playTrack e (Some tr) s) = V2.Aborted
           /\ src (V2.audio (snd (V2.playTrack e (Some tr) s))) = JStr "").
Proof.
  repeat apply conj.
  - intros body l Hg Hl. unfold V1.pick_stream. cbn [json_of bind]. rewrite Hg.
    cbn [bind js_or truthy V1.js_find_not_videoOnly].
    apply find_not_videoOnly_objects. exact Hl.
  - intros body l Hg. unfold V2.pick_stream. cbn [json_of bind].
    destruct body; try discriminate; rewrite Hg; reflexivity.
  - intros e tr s picked Hs Hp.
    rewrite (V1_playTrack_audio e tr s Hs), (V1_resolve_of_pick _ _ Hp).
    destruct (truthy (prop picked "url")); reflexivity.
  - intros e tr s picked Hs Hp.
    pose proof (V2_playTrack_youtube e tr s Hs) as H.
    rewrite (V2_resolve_of_pick _ _ Hp) in H.
    destruct (truthy (prop picked "url")).
    + destruct H as [-> ->]. split; [reflexivity|].
      destruct (play_accepted e); reflexivity.
    + destruct H as (-> & -> & _). split; reflexivity.
Qed.

Lemma playTrack_stream_selection_witness :
  V1.pick_stream (resolution (streams_env video_first_streams))
  = Ok (stream_entry "https://proxy/audio" false)
  /\ src (V2.audio (snd (V2.playTrack (streams_env video_first_streams)
                                      (Some (y_track "y2" "id2"))
                                      (V2_on five_tracks 2 false))))
     = JStr "https://proxy/video".
Proof.
  destruct playTrack_stream_selection as (H1 & H2 & _ & H4).
  split.
  - apply (H1 (JObj [("audioStreams", JArr video_first_streams)])
              video_first_streams eq_refl).
    repeat constructor.
  - apply (H4 (streams_env video_first_streams) (y_track "y2" "id2")
              (V2_on five_tracks 2 false) (stream_entry "https://proxy/video" true)
              eq_refl).
    apply (H2 (JObj [("audioStreams", JArr video_first_streams)])
              video_first_streams eq_refl).
Defined.

(** C2 as stated fails in both players.  When the only entry is video-only
    the specification's rule falls back to it, while the legacy player
    assigns nothing and keeps the previous source.  When a video-only entry
    comes before an audio entry the rule picks the audio entry, while the
    advanced player plays the first one. *)
Lemma playTrack_stream_selection_counterexample :
  prop (spec_select_stream video_only_streams) "url" = JStr "https://proxy/video"
  /\ src (V1.audio (V1.playTrack (streams_env video_only_streams)
                                 (y_track "y2" "id2") (V1_on five_tracks 2 false)))
     = JStr "https://cdn/now-playing"
  /\ src (V1.audio (V1.playTrack (streams_env video_only_streams)
                                 (y_track "y2" "id2") (V1_on five_tracks 2 false)))
     <> prop (spec_select_stream video_only_streams) "url"
  /\ prop (spec_select_stream video_first_streams) "url" = JStr "https://proxy/audio"
  /\ src (V2.audio (snd (V2.playTrack (streams_env video_first_streams)
                                      (Some (y_track "y2" "id2"))
                                      (V2_on five_tracks 2 false))))
     = JStr "https://proxy/video"
  /\ src (V2.audio (snd (V2.playTrack (streams_env video_first_streams)
                                      (Some (y_track "y2" "id2"))
                                      (V2_on five_tracks 2 false))))
     <> prop (spec_select_stream video_first_streams) "url".
Proof.
  cbn. repeat split; try reflexivity; discriminate.
Qed.

(** ** A stream lookup that fails *)

Example resolve_failures :
  V1.resolve NetworkError = None /\ V2.resolve NetworkError = None
  /\ V1.resolve InvalidJson = None /\ V2.resolve InvalidJson = None
  /\ V1.resolve (Json JNull) = None /\ V2.resolve (Json JNull) = None
  /\ V1.resolve (resolution (streams_env [])) = None
  /\ V2.resolve (resolution (streams_env [])) = None
  /\ V1.resolve (resolution (streams_env video_only_streams)) = None.
Proof. repeat split. Qed.

(** C3, amended. When the stream lookup of a YouTube track fails, the load
    stops but nothing is rolled back.  In the advanced player [playTrack]
    returns early: titles, cover and visibility of the two views are left as
    they were and nothing starts playing; yet [currentTrack] is already the
    selected track, the audio element has been paused and its source
    emptied, and the cursor is the one the caller chose, so after
    [playNext] it has advanced.  In the legacy player the audio element is
    left untouched (what was playing keeps playing), while [currentTrack],
    the displayed title and the cursor are those of the selected track. *)
Theorem failed_resolution_aborts_load :
  (forall e tr (s : V2.State),
      source tr = youtube -> V2.resolve (resolution e) = None ->
      fst (V2.playTrack e (Some tr) s) = V2.Aborted
      /\ V2.currentTrack (snd (V2.playTrack e (Some tr) s)) = Some tr
      /\ V2.audio (snd (V2.playTrack e (Some tr) s))
         = audio_set_src (JStr "") (audio_pause (V2.audio s))
      /\ V2.view (snd (V2.playTrack e (Some tr) s)) = V2.view s
      /\ V2.currentPlaylist (snd (V2.playTrack e (Some tr) s)) = V2.currentPlaylist s
      /\ (0 <= V2.currentTrackIndex s ->
          V2.currentTrackIndex (snd (V2.playTrack e (Some tr) s)) = V2.currentTrackIndex s))
  /\ (forall draw e (s : V2.State),
      V2.currentPlaylist s <> [] -> V2.isShuffle s = false ->
      -1 <= V2.currentTrackIndex s -> V2.resolve (resolution e) = None ->
      V2.currentTrackIndex (V2.playNext draw e s)
      = (V2.currentTrackIndex s + 1) mod len (V2.currentPlaylist s)
      /\ V2.currentTrack (V2.playNext draw e s)
         = at_index (V2.currentPlaylist s) (V2.currentTrackIndex (V2.playNext draw e s)))
  /\ (forall e tr (s : V1.State),
      source tr = youtube -> V1.resolve (resolution e) = None ->
      V1.audio (V1.playTrack e tr s) = V1.audio s
      /\ V1.currentTrack (V1.playTrack e tr s) = Some tr
      /\ V1.titleText (V1.view (V1.playTrack e tr s)) = title tr
      /\ V1.currentPlaylist (V1.playTrack e tr s) = V1.currentPlaylist s
      /\ (0 <= V1.currentTrackIndex s ->
          V1.currentTrackIndex (V1.playTrack e tr s) = V1.currentTrackIndex s)).
Proof.
  repeat apply conj.
  - intros e tr s Hs Hr.
    pose proof (V2_playTrack_youtube e tr s Hs) as H. rewrite Hr in H.
    destruct H as (H1 & H2 & H3).
    destruct (V2_playTrack_frame e (Some tr) s) as (Hp & _ & Hc & Hx).
    repeat split; assumption.
  - intros draw e s Hne Hsh Hc Hr.
    destruct (V2_playNext_step draw e s Hne Hsh Hc) as (Hi & _).
    split; [exact Hi|]. rewrite Hi.
    unfold V2.playNext.
    destruct (Z.eqb_spec (len (V2.currentPlaylist s)) 0) as [E|_];
      [pose proof (len_pos _ Hne); lia|].
    rewrite Hsh, rem_next by (try assumption; apply len_pos; assumption).
    match goal with |- context [V2.playTrack e ?t ?s0] =>
      destruct (V2_playTrack_frame e t s0) as (_ & _ & Hct & _) end.
    rewrite Hct. reflexivity.
  - intros e tr s Hs Hr.
    pose proof (V1_playTrack_audio e tr s Hs) as Ha. rewrite Hr in Ha.
    destruct (V1_playTrack_frame e tr s) as (Hp & _ & Hc & Hx).
    repeat split; try assumption.
    unfold V1.playTrack. rewrite Hs, Hr.
    cbn [V1.currentTrackIndex V1.set_currentTrack].
    destruct (V1.currentTrackIndex s <? 0); reflexivity.
Qed.

Lemma failed_resolution_aborts_load_witness :
  fst (V2.playTrack env_offline (Some (y_track "y2" "id2")) (V2_on five_tracks 2 false))
  = V2.Aborted
  /\ V2.currentTrackIndex (V2.playNext 0%Q env_offline (V2_on five_tracks 1 false)) = 2.
Proof.
  destruct failed_resolution_aborts_load as (H1 & H2 & _).
  split.
  - apply (H1 env_offline (y_track "y2" "id2") (V2_on five_tracks 2 false) eq_refl eq_refl).
  - apply (H2 0%Q env_offline (V2_on five_tracks 1 false));
      [discriminate | reflexivity | cbn; lia | reflexivity].
Defined.

(** C3 as stated fails.  The second Audius track of five is playing; the
    next one is a YouTube track and the network is down.  After [playNext]
    the cursor has moved from 1 to 2, [currentTrack] is the YouTube track,
    and the audio that was playing is paused with an empty source.  The
    legacy player keeps the audio, but cursor and [currentTrack] move too. *)
Lemma failed_resolution_counterexample :
  V2.resolve (resolution env_offline) = None
  /\ V2.currentTrackIndex (V2_on five_tracks 1 false) = 1
  /\ V2.currentTrackIndex (V2.playNext 0%Q env_offline (V2_on five_tracks 1 false)) = 2
  /\ V2.currentTrack (V2_on five_tracks 1 false) = Some (a_track "a1" "https://cdn/a1")
  /\ V2.currentTrack (V2.playNext 0%Q env_offline (V2_on five_tracks 1 false))
     = Some (y_track "y2" "id2")
  /\ paused (V2.audio (V2_on five_tracks 1 false)) = false
  /\ paused (V2.audio (V2.playNext 0%Q env_offline (V2_on five_tracks 1 false))) = true
  /\ src (V2.audio (V2.playNext 0%Q env_offline (V2_on five_tracks 1 false))) = JStr ""
  /\ V2.playNext 0%Q env_offline (V2_on five_tracks 1 false) <> V2_on five_tracks 1 false
  /\ V1.playNext [] env_offline (V1_on five_tracks 1 false)
     <> Some (V1_on five_tracks 1 false).
Proof.
  repeat split; try reflexivity; cbn; discriminate.
Qed.

(** ** Closing the player *)

(** C4, amended. Closing pauses the audio and resets the position to 0;
    the advanced player hides the mini and the full view and shows the
    bottom navigation again, the legacy player hides its single player and
    takes it out of the expanded mode.  [currentTrack], the cursor, the
    playlist and the shuffle and repeat flags are left as they were. *)
Theorem close_stops_and_hides (s1 : V1.State) (s2 : V2.State) :
  (paused (V2.audio (V2.close s2)) = true
   /\ currentTime (V2.audio (V2.close s2)) = 0%Q
   /\ V2.miniHidden (V2.view (V2.close s2)) = true
   /\ V2.fullHidden (V2.view (V2.close s2)) = true
   /\ V2.navHidden (V2.view (V2.close s2)) = false
   /\ V2.currentTrack (V2.close s2) = V2.currentTrack s2
   /\ V2.currentTrackIndex (V2.close s2) = V2.currentTrackIndex s2
   /\ V2.currentPlaylist (V2.close s2) = V2.currentPlaylist s2
   /\ V2.isShuffle (V2.close s2) = V2.isShuffle s2
   /\ V2.isRepeat (V2.close s2) = V2.isRepeat s2)
  /\ (paused (V1.audio (V1.close s1)) = true
      /\ currentTime (V1.audio (V1.close s1)) = 0%Q
      /\ V1.playerDisplay (V1.view (V1.close s1)) = "none"
      /\ V1.playerExpanded (V1.view (V1.close s1)) = false
      /\ V1.isPlayerExpanded (V1.close s1) = false
      /\ V1.bottomNavDisplay (V1.view (V1.close s1)) = "flex"
      /\ V1.currentTrack (V1.close s1) = V1.currentTrack s1
      /\ V1.currentTrackIndex (V1.close s1) = V1.currentTrackIndex s1
      /\ V1.currentPlaylist (V1.close s1) = V1.currentPlaylist s1
      /\ V1.isShuffle (V1.close s1) = V1.isShuffle s1
      /\ V1.isRepeat (V1.close s1) = V1.isRepeat s1).
Proof.
  split; repeat split.
Qed.

(** C4 as stated fails: closing while the third of five tracks plays
    leaves the cursor at 2 and [currentTrack] on that track, in both
    players. *)
Lemma close_counterexample :
  V2.currentTrackIndex (V2.close (V2_on five_tracks 2 false)) = 2
  /\ V2.currentTrackIndex (V2.close (V2_on five_tracks 2 false)) <> -1
  /\ V2.currentTrack (V2.close (V2_on five_tracks 2 false)) = Some (y_track "y2" "id2")
  /\ V2.currentTrack (V2.close (V2_on five_tracks 2 false)) <> None
  /\ V1.currentTrackIndex (V1.close (V1_on five_tracks 2 false)) <> -1
  /\ V1.currentTrack (V1.close (V1_on five_tracks 2 false)) <> None.
Proof.
  repeat split; try reflexivity; cbn; discriminate.
Qed.

(** * Further properties of the search *)

Lemma audiusTracks_at_most_six (r : Response) (l : list Track) :
  audiusTracks r = Ok l -> (List.length l <= 6)%nat.
Proof.
  unfold audiusTracks. intros H. do 4 inv_bind H. injection H as <-.
  destruct (js_or v0 (JArr [])) as [| | | |x|items|]; try discriminate.
  - unfold slice06 in E1. injection E1 as <-. discriminate.
  - unfold slice06 in E1.
    pose proof (firstn_le_length 6 items) as Hf.
    set (f := firstn 6 items) in *. clearbody f.
    injection E1 as <-. unfold js_map in E2. apply mapM_length in E2.
    etransitivity; [apply filter_length_le|]. rewrite E2. exact Hf.
Qed.

Lemma youtubeTracks_at_most_six (r : Response) (l : list Track) :
  youtubeTracks r = Ok l -> (List.length l <= 6)%nat.
Proof.
  unfold youtubeTracks. intros H. do 2 inv_bind H.
  destruct (js_or v0 v) as [| | | |x|items|]; cbn [isArray] in H;
    try (injection H as <-; cbn; lia).
  inv_bind H. unfold slice06 in E1.
  pose proof (firstn_le_length 6 items) as Hf.
  set (f := firstn 6 items) in *. clearbody f.
  injection E1 as <-. unfold js_map in H.
  apply mapM_length in H. rewrite H. exact Hf.
Qed.

Lemma contribution_audius_bound (r : Response) :
  (List.length (contribution (audiusTracks r)) <= 6)%nat.
Proof.
  destruct (audiusTracks r) as [l|] eqn:E; cbn; [|lia].
  eapply audiusTracks_at_most_six. exact E.
Qed.

Lemma contribution_youtube_bound (r : Response) :
  (List.length (contribution (youtubeTracks r)) <= 6)%nat.
Proof.
  destruct (youtubeTracks r) as [l|] eqn:E; cbn; [|lia].
  eapply youtubeTracks_at_most_six. exact E.
Qed.

(** What [search_tracks] returns for each value of the filter. *)
Lemma search_tracks_by_filter (filter : string) (rA rB : Response) :
  search_tracks filter rA rB
  = Ok ((if String.eqb filter "all" || String.eqb filter "audius"
         then contribution (audiusTracks rA) else [])
        ++ (if String.eqb filter "all" || String.eqb filter "youtube"
            then contribution (youtubeTracks rB) else [])).
Proof.
  unfold search_tracks.
  destruct (String.eqb filter "all" || String.eqb filter "audius");
    destruct (String.eqb filter "all" || String.eqb filter "youtube");
    destruct (audiusTracks rA); destruct (youtubeTracks rB); cbn;
    rewrite ?app_nil_r; reflexivity.
Qed.

(** X1. The source filter decides which provider is asked: with "audius"
    the playlist is the Audius contribution whatever Piped would answer,
    with "youtube" it is the Piped contribution whatever Audius would
    answer, and with any other value than these two and "all" the playlist
    is empty and the page shows the no-results message. *)
Theorem search_filter_selects_providers (filter : string) (rA rB : Response) :
  search_tracks "audius" rA rB = Ok (contribution (audiusTracks rA))
  /\ search_tracks "youtube" rA rB = Ok (contribution (youtubeTracks rB))
  /\ (filter <> "all" -> filter <> "audius" -> filter <> "youtube" ->
      search_tracks filter rA rB = Ok []
      /\ (forall s : V1.State,
             exists s', V1.searchMusic filter rA rB s = Ok s'
                        /\ V1.currentPlaylist s' = []
                        /\ V1.musicResults s' = NoResults)
      /\ (forall s : V2.State,
             exists s', V2.searchMusic filter rA rB s = Ok s'
                        /\ V2.currentPlaylist s' = []
                        /\ V2.musicResults s' = NoResults)).
Proof.
  split; [|split].
  - rewrite search_tracks_by_filter. cbn. apply f_equal, app_nil_r.
  - rewrite search_tracks_by_filter. reflexivity.
  - intros H1 H2 H3.
    assert (E : search_tracks filter rA rB = Ok []).
    { rewrite search_tracks_by_filter.
      apply String.eqb_neq in H1, H2, H3. rewrite H1, H2, H3. reflexivity. }
    split; [exact E|]. split; intros s.
    + destruct (V1_searchMusic_Ok _ _ _ s _ E) as (s' & Es & Hp & Hr). eauto.
    + destruct (V2_searchMusic_Ok _ _ _ s _ E) as (s' & Es & Hp & Hr). eauto.
Qed.

Lemma search_filter_selects_providers_witness :
  search_tracks "spotify" two_from_audius three_from_piped = Ok [].
Proof.
  apply (search_filter_selects_providers "spotify" two_from_audius three_from_piped);
    discriminate.
Defined.

(** X2. Whatever the filter and the two answers, a search yields at most
    twelve tracks: at most six from Audius, which come first, and at most
    six from Piped. *)
Theorem search_tracks_at_most_twelve (filter : string) (rA rB : Response) :
  exists a y,
    search_tracks filter rA rB = Ok (a ++ y)
    /\ (List.length a <= 6)%nat /\ (List.length y <= 6)%nat
    /\ (List.length (a ++ y) <= 12)%nat
    /\ Forall (fun t => source t = audius) a
    /\ Forall (fun t => source t = youtube) y.
Proof.
  exists (if String.eqb filter "all" || String.eqb filter "audius"
          then contribution (audiusTracks rA) else []),
         (if String.eqb filter "all" || String.eqb filter "youtube"
          then contribution (youtubeTracks rB) else []).
  split; [apply search_tracks_by_filter|].
  assert (Ha : forall b : bool,
             (List.length (if b then contribution (audiusTracks rA) else []) <= 6)%nat)
    by (intros [|]; [apply contribution_audius_bound | cbn; lia]).
  assert (Hy : forall b : bool,
             (List.length (if b then contribution (youtubeTracks rB) else []) <= 6)%nat)
    by (intros [|]; [apply contribution_youtube_bound | cbn; lia]).
  split; [apply Ha|]. split; [apply Hy|].
  split; [rewrite length_app; specialize (Ha (String.eqb filter "all" || String.eqb filter "audius"));
          specialize (Hy (String.eqb filter "all" || String.eqb filter "youtube")); lia|].
  split.
  - destruct (String.eqb filter "all" || String.eqb filter "audius"); [|constructor].
    destruct (audiusTracks rA) as [l|] eqn:E; [|constructor]. cbn.
    pose proof (audiusTracks_streamable _ _ E) as H.
    revert H. apply Forall_impl. intros t [Hs _]. exact Hs.
  - destruct (String.eqb filter "all" || String.eqb filter "youtube"); [|constructor].
    destruct (youtubeTracks rB) as [l|] eqn:E; [|constructor]. cbn.
    pose proof (youtubeTracks_mapped _ _ E) as H.
    revert H. apply Forall_impl. intros t [Hs _]. exact Hs.
Qed.

(** ** The video id of a Piped item *)

Lemma append_empty_r (s : string) : String.append s "" = s.
Proof. induction s as [|c s IH]; cbn; [reflexivity | rewrite IH; reflexivity]. Qed.

Lemma append_snoc (acc : string) (c : ascii) (s : string) :
  String.append (String.append acc (String c "")) s = String.append acc (String c s).
Proof. induction acc as [|d acc IH]; cbn; [reflexivity | rewrite IH; reflexivity]. Qed.

Lemma prefix_v_eq_false (c : ascii) (s : string) :
  c <> "="%char -> (forall d r, s = String d r -> d <> "="%char) ->
  prefix "v=" (String c s) = false.
Proof.
  intros Hc Hs. cbn [prefix].
  destruct (ascii_dec "v" c) as [_|_]; [|reflexivity].
  destruct s as [|d r]; [reflexivity|]. cbn [prefix].
  destruct (ascii_dec "=" d) as [E|_]; [|reflexivity].
  exfalso. apply (Hs d r eq_refl). symmetry. exact E.
Qed.

Lemma prefix_v_eq_true (rest : string) :
  prefix "v=" (String "v" (String "=" rest)) = true.
Proof. destruct rest; reflexivity. Qed.

Lemma split_go_no_eq (s : string) :
  no_char "=" s -> forall acc, split_go "v=" s 0 acc = [String.append acc s].
Proof.
  induction s as [|c s IH]; intros H acc; cbn [split_go].
  - rewrite append_empty_r. reflexivity.
  - destruct H as [Hc Hs].
    rewrite prefix_v_eq_false.
    + rewrite IH by exact Hs. rewrite append_snoc. reflexivity.
    + exact Hc.
    + intros d r ->. exact (proj1 Hs).
Qed.

Lemma split_go_at_v (p : string) :
  no_char "=" p ->
  forall acc rest,
    split_go "v=" (String.append p (String "v" (String "=" rest))) 0 acc
    = String.append acc p :: split_go "v=" rest 0 "".
Proof.
  induction p as [|c p IH]; intros H acc rest.
  - cbn [String.append split_go]. rewrite prefix_v_eq_true, append_empty_r.
    reflexivity.
  - destruct H as [Hc Hp].
    change (String.append (String c p) (String "v" (String "=" rest)))
      with (String c (String.append p (String "v" (String "=" rest)))).
    cbn [split_go]. rewrite prefix_v_eq_false.
    + rewrite IH by exact Hp. rewrite append_snoc. reflexivity.
    + exact Hc.
    + intros d r E. destruct p as [|d' p']; cbn in E; injection E as <- _.
      * discriminate.
      * exact (proj1 Hp).
Qed.

Lemma split_watch_url (p id : string) :
  no_char "=" p -> no_char "=" id ->
  split "v=" (String.append p (String "v" (String "=" id))) = [p; id].
Proof.
  intros Hp Hid. unfold split. rewrite split_go_at_v by exact Hp.
  rewrite split_go_no_eq by exact Hid. reflexivity.
Qed.

(** X3. The video id of a Piped item: a truthy [id] is used as it is and
    the [url] is not even looked at; without one, a [url] of the form
    [p ++ "v=" ++ v] with no other "=" in it gives [v] (the whole url when
    [v] is empty); an item with neither [id] nor [url] gives the empty
    string; and a [url] that is neither absent nor a string makes the
    mapping throw. *)
Theorem video_id_of_item (o : list (string * jsval)) (p v : string) :
  (truthy (assoc "id" o) = true -> video_id (JObj o) = Ok (assoc "id" o))
  /\ (truthy (assoc "id" o) = false ->
      assoc "url" o = JStr (String.append p (String "v" (String "=" v))) ->
      no_char "=" p -> no_char "=" v ->
      video_id (JObj o)
      = Ok (JStr (if String.eqb v "" then String.append p "v=" else v)))
  /\ (truthy (assoc "id" o) = false ->
      (assoc "url" o = JUndefined \/ assoc "url" o = JNull \/ assoc "url" o = JStr "") ->
      video_id (JObj o) = Ok (JStr ""))
  /\ (truthy (assoc "id" o) = false ->
      (forall s, assoc "url" o <> JStr s) ->
      assoc "url" o <> JUndefined -> assoc "url" o <> JNull ->
      video_id (JObj o) = Throw).
Proof.
  unfold video_id. cbn [get bind].
  split; [|split; [|split]].
  - intros ->. reflexivity.
  - intros -> Hu Hp Hv. rewrite Hu. cbn [split_v_1 bind].
    rewrite split_watch_url by assumption. cbn [nth_error].
    unfold js_or. cbn [truthy].
    destruct (String.eqb_spec v "") as [->|Hne]; cbn [negb].
    + destruct p; reflexivity.
    + reflexivity.
  - intros -> [-> | [-> | ->]]; reflexivity.
  - intros -> Hs Hu Hn.
    destruct (assoc "url" o) as [| | | |s| |];
      try reflexivity; try congruence.
Qed.

Lemma video_id_of_item_witness :
  video_id (piped_item "y2" "/watch?v=id2") = Ok (JStr "id2")
  /\ video_id (JObj [("id", JStr "abc"); ("url", JNum 7)]) = Ok (JStr "abc")
  /\ video_id (JObj [("url", JNum 7)]) = Throw.
Proof.
  split; [|split].
  - apply (proj1 (proj2 (video_id_of_item
                           [("url", JStr "/watch?v=id2"); ("title", JStr "y2");
                            ("uploader", JStr "uploader")] "/watch?" "id2")));
      cbn; try reflexivity; repeat split; discriminate.
  - apply (proj1 (video_id_of_item [("id", JStr "abc"); ("url", JNum 7)] "" "")).
    reflexivity.
  - apply (proj2 (proj2 (proj2 (video_id_of_item [("url", JNum 7)] "" ""))));
      [reflexivity | discriminate | discriminate | discriminate].
Defined.

Example video_id_keeps_later_parameters :
  video_id (JObj [("url", JStr "/watch?v=id2&list=PL1")]) = Ok (JStr "id2&list=PL1").
Proof. reflexivity. Qed.

(** * Further properties of playback *)

(** X4. Playing an Audius track needs no stream lookup: whatever the Piped
    endpoint would answer, [playTrack] assigns the track's own stream url to
    the audio element and starts it; the advanced player runs to its end and
    shows the mini player, the legacy player shows its player. *)
Theorem playTrack_audius_needs_no_lookup
    (r r' : Response) (accepted : bool) (tr : Track) (s1 : V1.State) (s2 : V2.State) :
  source tr = audius ->
  V1.playTrack (mkPlayEnv r accepted) tr s1 = V1.playTrack (mkPlayEnv r' accepted) tr s1
  /\ V1.audio (V1.playTrack (mkPlayEnv r accepted) tr s1)
     = audio_play accepted (audio_set_src (stream tr) (V1.audio s1))
  /\ V1.playerDisplay (V1.view (V1.playTrack (mkPlayEnv r accepted) tr s1)) = "flex"
  /\ V2.playTrack (mkPlayEnv r accepted) (Some tr) s2
     = V2.playTrack (mkPlayEnv r' accepted) (Some tr) s2
  /\ fst (V2.playTrack (mkPlayEnv r accepted) (Some tr) s2) = V2.Played
  /\ src (V2.audio (snd (V2.playTrack (mkPlayEnv r accepted) (Some tr) s2))) = stream tr
  /\ (accepted = true ->
      paused (V2.audio (snd (V2.playTrack (mkPlayEnv r accepted) (Some tr) s2))) = false)
  /\ V2.miniHidden (V2.view (snd (V2.playTrack (mkPlayEnv r accepted) (Some tr) s2))) = false
  /\ V2.fullHidden (V2.view (snd (V2.playTrack (mkPlayEnv r accepted) (Some tr) s2))) = true.
Proof.
  intros Hs. unfold V1.playTrack, V2.playTrack. rewrite Hs.
  cbn [V1.currentTrackIndex V1.set_currentTrack V2.currentTrackIndex V2.set_currentTrack
       play_accepted].
  destruct (V1.currentTrackIndex s1 <? 0); destruct (V2.currentTrackIndex s2 <? 0);
    destruct accepted; cbn; repeat split; try reflexivity; discriminate.
Qed.

Lemma playTrack_audius_needs_no_lookup_witness :
  src (V2.audio (snd (V2.playTrack env_offline (Some (a_track "a1" "https://cdn/a1"))
                                   (V2_on five_tracks 0 false))))
  = JStr "https://cdn/a1".
Proof.
  apply (playTrack_audius_needs_no_lookup NetworkError NetworkError true
           (a_track "a1" "https://cdn/a1") V1.init (V2_on five_tracks 0 false) eq_refl).
Defined.

(** * Time labels *)









(** * End of track *)

Lemma near_end_needs_duration (position : Q) (duration : jsnum) :
  near_end position duration = true ->
  exists d, duration = Fin d /\ ~ (d == 0)%Q /\ (d - (3 # 10) <= position)%Q.
Proof.
  destruct duration as [| | |d]; cbn [near_end]; try discriminate.
  intros H. apply andb_true_iff in H. destruct H as [H1 H2].
  exists d. split; [reflexivity|]. split.
  - intros E. apply Qeq_bool_iff in E. rewrite E in H2. discriminate.
  - apply Qle_bool_iff. exact H1.
Qed.





(** * Progress bars and seeking *)

Lemma Qeq_bool_pos (x : Q) : (0 < x)%Q -> Qeq_bool x 0 = false.
Proof.
  intros H. destruct (Qeq_bool x 0) eqn:E; [|reflexivity].
  apply Qeq_bool_iff in E. rewrite E in H. exfalso. exact (Qlt_irrefl 0 H).
Qed.

Lemma ratio_in_unit (x lo w : Q) :
  (0 < w)%Q -> (lo <= x)%Q -> (x <= lo + w)%Q ->
  (0 <= (x - lo) / w)%Q /\ ((x - lo) / w <= 1)%Q.
Proof.
  intros Hw H0 H1. split.
  - apply Qle_shift_div_l; [exact Hw|]. rewrite Qmult_0_l.
    rewrite <- (Qplus_opp_r lo). apply Qplus_le_compat; [exact H0 | apply Qle_refl].
  - apply Qle_shift_div_r; [exact Hw|]. rewrite Qmult_1_l.
    apply (Qplus_le_l _ _ lo). setoid_replace (x - lo + lo)%Q with x by ring.
    rewrite Qplus_comm. exact H1.
Qed.

Lemma scaled_in_range (r d : Q) :
  (0 <= r)%Q -> (r <= 1)%Q -> (0 <= d)%Q -> (0 <= r * d)%Q /\ (r * d <= d)%Q.
Proof.
  intros H0 H1 Hd. split.
  - apply Qmult_le_0_compat; assumption.
  - rewrite <- (Qmult_1_l d) at 2. apply Qmult_le_compat_r; assumption.
Qed.

(** X9. The progress bars of the advanced player: while the duration is
    [NaN] or 0 nothing is written; otherwise the mini and the full bar get
    the same width and the labels are the formatted position and duration;
    and with the position between 0 and a positive finite duration the
    width is between 0 and 100 percent. *)
Theorem V2_updateProgress_bars (a : Audio) (duration : jsnum) (d : Q) (p : Progress) :
  (duration = NaN \/ (duration = Fin d /\ (d == 0)%Q) -> V2_updateProgress a duration p = p)
  /\ (num_truthy duration = true ->
      miniWidth (V2_updateProgress a duration p) = fullWidth (V2_updateProgress a duration p)
      /\ fullCurrent (V2_updateProgress a duration p) = V2_formatTime (Fin (currentTime a))
      /\ fullTotal (V2_updateProgress a duration p) = V2_formatTime duration)
  /\ (duration = Fin d -> (0 < d)%Q -> (0 <= currentTime a)%Q -> (currentTime a <= d)%Q ->
      (0 <= fullWidth (V2_updateProgress a duration p))%Q
      /\ (fullWidth (V2_updateProgress a duration p) <= 100)%Q).
Proof.
  split; [|split].
  - intros [-> | [-> Hd]]; [reflexivity|].
    unfold V2_updateProgress, num_truthy. apply Qeq_bool_iff in Hd. rewrite Hd. reflexivity.
  - intros Ht. unfold V2_updateProgress. rewrite Ht. cbn. auto.
  - intros -> Hd H0 H1. unfold V2_updateProgress, num_truthy.
    rewrite (Qeq_bool_pos d Hd). cbn [negb fullWidth percentage].
    assert (Hr : (0 <= currentTime a / d)%Q /\ (currentTime a / d <= 1)%Q).
    { split.
      - apply Qle_shift_div_l; [exact Hd|]. rewrite Qmult_0_l. exact H0.
      - apply Qle_shift_div_r; [exact Hd|]. rewrite Qmult_1_l. exact H1. }
    destruct Hr as [Hr0 Hr1].
    apply (scaled_in_range _ 100 Hr0 Hr1). discriminate.
Qed.

Lemma V2_updateProgress_bars_witness :
  (0 <= fullWidth (V2_updateProgress (playing "https://cdn/a0") (Fin 48)
                     (mkProgress 0 0 "" "")))%Q
  /\ (fullWidth (V2_updateProgress (playing "https://cdn/a0") (Fin 48)
                   (mkProgress 0 0 "" "")) <= 100)%Q.
Proof.
  apply (proj2 (proj2 (V2_updateProgress_bars (playing "https://cdn/a0") (Fin 48) 48
                         (mkProgress 0 0 "" ""))) eq_refl);
    [reflexivity | discriminate | discriminate].
Defined.

(** X10. Seeking by a click on a progress bar: while the duration is [NaN]
    or 0 the click changes nothing; with a positive finite duration and a
    click inside a bar of positive width the position assigned is the
    clicked fraction of the duration, between 0 and the duration, half of
    it for a click in the middle, and source and paused state are left
    alone; a bar of width 0 or an infinite duration makes the assignment
    throw. *)
Theorem seek_by_click (clientX left width d : Q) (a : Audio) :
  seek clientX left width NaN a = Ok a
  /\ ((d == 0)%Q -> seek clientX left width (Fin d) a = Ok a)
  /\ ((0 < width)%Q -> (0 < d)%Q -> (left <= clientX)%Q -> (clientX <= left + width)%Q ->
      exists a',
        seek clientX left width (Fin d) a = Ok a'
        /\ currentTime a' = ((clientX - left) / width * d)%Q
        /\ (0 <= currentTime a')%Q /\ (currentTime a' <= d)%Q
        /\ src a' = src a /\ paused a' = paused a
        /\ ((clientX == left + width / 2)%Q -> (currentTime a' == d / 2)%Q))
  /\ ((0 < d)%Q -> seek clientX left 0 (Fin d) a = Throw)
  /\ seek clientX left width PosInf a = Throw.
Proof.
  split; [reflexivity|]. split; [|split; [|split; [|reflexivity]]].
  - intros Hd. unfold seek, num_truthy. apply Qeq_bool_iff in Hd. rewrite Hd. reflexivity.
  - intros Hw Hd H0 H1. unfold seek, num_truthy.
    rewrite (Qeq_bool_pos d Hd), (Qeq_bool_pos width Hw). cbn [negb].
    eexists. split; [reflexivity|]. cbn [currentTime audio_set_currentTime src paused].
    destruct (ratio_in_unit clientX left width Hw H0 H1) as [Hr0 Hr1].
    destruct (scaled_in_range _ d Hr0 Hr1 (Qlt_le_weak _ _ Hd)) as [Hs0 Hs1].
    repeat split; try assumption.
    intros E. rewrite E. field. intros Hz. rewrite Hz in Hw. exact (Qlt_irrefl 0 Hw).
  - intros Hd. unfold seek, num_truthy. rewrite (Qeq_bool_pos d Hd). reflexivity.
Qed.

Lemma seek_by_click_witness :
  exists a',
    seek 150 100 100 (Fin 48) (playing "https://cdn/a0") = Ok a'
    /\ (currentTime a' == 24)%Q.
Proof.
  destruct (proj1 (proj2 (proj2 (seek_by_click 150 100 100 48 (playing "https://cdn/a0"))))
             eq_refl eq_refl) as (a' & E & _ & _ & _ & _ & _ & Hm);
    [discriminate | discriminate |].
  exists a'. split; [exact E|]. rewrite Hm; reflexivity.
Defined.

(** * Sessions *)

Lemma V1_play_at (e : PlayEnv) (t : Track) (i : Z) (s : V1.State) :
  0 <= i -> V1_consistent s ->
  V1_consistent (V1.playTrack e t (V1.set_currentTrackIndex i s))
  /\ V1.currentTrackIndex (V1.playTrack e t (V1.set_currentTrackIndex i s)) = i
  /\ V1.currentTrack (V1.playTrack e t (V1.set_currentTrackIndex i s)) = Some t
  /\ V1.currentPlaylist (V1.playTrack e t (V1.set_currentTrackIndex i s))
     = V1.currentPlaylist s.
Proof.
  intros Hi (Hc & Hr & Ht & Hx).
  destruct (V1_playTrack_frame e t (V1.set_currentTrackIndex i s)) as (Hp & _ & Hct & Hidx).
  specialize (Hidx Hi). cbn [V1.currentTrackIndex V1.currentPlaylist V1.set_currentTrackIndex] in *.
  assert (Hm : V1.musicResults (V1.playTrack e t (V1.set_currentTrackIndex i s))
               = V1.musicResults s
               /\ V1.playerExpanded (V1.view (V1.playTrack e t (V1.set_currentTrackIndex i s)))
                  = V1.playerExpanded (V1.view s)
               /\ V1.isPlayerExpanded (V1.playTrack e t (V1.set_currentTrackIndex i s))
                  = V1.isPlayerExpanded s).
  { unfold V1.playTrack. cbn [V1.currentTrackIndex V1.set_currentTrack V1.set_currentTrackIndex].
    destruct (i <? 0); destruct (source t); try destruct (V1.resolve (resolution e));
      cbn; auto. }
  destruct Hm as (Hm & Hv & He).
  repeat split; try assumption.
  - lia.
  - rewrite Hm, Hp. exact Hr.
  - rewrite Hct. discriminate.
  - rewrite Hidx. lia.
  - rewrite Hv, He. exact Hx.
Qed.

Lemma V2_play_at (e : PlayEnv) (t : Track) (i : Z) (s : V2.State) :
  0 <= i -> V2_consistent s ->
  V2_consistent (snd (V2.playTrack e (Some t) (V2.set_currentTrackIndex i s)))
  /\ V2.currentTrackIndex (snd (V2.playTrack e (Some t) (V2.set_currentTrackIndex i s))) = i
  /\ V2.currentTrack (snd (V2.playTrack e (Some t) (V2.set_currentTrackIndex i s))) = Some t
  /\ V2.currentPlaylist (snd (V2.playTrack e (Some t) (V2.set_currentTrackIndex i s)))
     = V2.currentPlaylist s.
Proof.
  intros Hi (Hc & Hr & Ht).
  destruct (V2_playTrack_frame e (Some t) (V2.set_currentTrackIndex i s))
    as (Hp & _ & Hct & Hidx).
  specialize (Hidx Hi). cbn [V2.currentTrackIndex V2.currentPlaylist V2.set_currentTrackIndex] in *.
  assert (Hm : V2.musicResults (snd (V2.playTrack e (Some t) (V2.set_currentTrackIndex i s)))
               = V2.musicResults s).
  { unfold V2.playTrack. cbn [V2.currentTrackIndex V2.set_currentTrack V2.set_currentTrackIndex].
    destruct (i <? 0); destruct (source t); try destruct (V2.resolve (resolution e));
      reflexivity. }
  repeat split; try assumption.
  - lia.
  - rewrite Hm, Hp. exact Hr.
  - rewrite Hct. discriminate.
  - rewrite Hidx. lia.
Qed.

(** The next and the previous track of the advanced player are played
    from an index inside the playlist. *)
Lemma V2_playNext_shape (draw : Q) (e : PlayEnv) (s : V2.State) :
  V2.currentPlaylist s <> [] -> -1 <= V2.currentTrackIndex s -> unit_draw draw ->
  exists i t,
    0 <= i < len (V2.currentPlaylist s)
    /\ at_index (V2.currentPlaylist s) i = Some t
    /\ V2.playNext draw e s = snd (V2.playTrack e (Some t) (V2.set_currentTrackIndex i s)).
Proof.
  intros Hne Hc Hd. pose proof (len_pos _ Hne) as Hn.
  unfold V2.playNext.
  destruct (Z.eqb_spec (len (V2.currentPlaylist s)) 0) as [E|_]; [lia|].
  destruct (V2.isShuffle s).
  - pose proof (random_index_range _ _ Hd Hn) as Hi.
    destruct (at_index_in_range _ _ Hi) as [t Ht].
    exists (random_index draw (len (V2.currentPlaylist s))), t.
    cbn [V2.currentPlaylist V2.currentTrackIndex V2.set_currentTrackIndex].
    rewrite Ht. auto.
  - rewrite rem_next by assumption.
    pose proof (Z.mod_pos_bound (V2.currentTrackIndex s + 1) _ Hn) as Hi.
    destruct (at_index_in_range _ _ Hi) as [t Ht].
    exists ((V2.currentTrackIndex s + 1) mod len (V2.currentPlaylist s)), t.
    cbn [V2.currentPlaylist V2.currentTrackIndex V2.set_currentTrackIndex].
    rewrite Ht. auto.
Qed.

Lemma V2_playPrev_shape (draw : Q) (e : PlayEnv) (s : V2.State) :
  V2.currentPlaylist s <> [] -> -1 <= V2.currentTrackIndex s -> unit_draw draw ->
  exists i t,
    0 <= i < len (V2.currentPlaylist s)
    /\ at_index (V2.currentPlaylist s) i = Some t
    /\ V2.playPrev draw e s = snd (V2.playTrack e (Some t) (V2.set_currentTrackIndex i s)).
Proof.
  intros Hne Hc Hd. pose proof (len_pos _ Hne) as Hn.
  unfold V2.playPrev.
  destruct (Z.eqb_spec (len (V2.currentPlaylist s)) 0) as [E|_]; [lia|].
  destruct (V2.isShuffle s).
  - pose proof (random_index_range _ _ Hd Hn) as Hi.
    destruct (at_index_in_range _ _ Hi) as [t Ht].
    exists (random_index draw (len (V2.currentPlaylist s))), t.
    cbn [V2.currentPlaylist V2.currentTrackIndex V2.set_currentTrackIndex].
    rewrite Ht. auto.
  - rewrite rem_prev by assumption.
    pose proof (Z.mod_pos_bound (V2.currentTrackIndex s - 1) _ Hn) as Hi.
    destruct (at_index_in_range _ _ Hi) as [t Ht].
    exists ((V2.currentTrackIndex s - 1) mod len (V2.currentPlaylist s)), t.
    cbn [V2.currentPlaylist V2.currentTrackIndex V2.set_currentTrackIndex].
    rewrite Ht. auto.
Qed.

Lemma V2_playNext_consistent (draw : Q) (e : PlayEnv) (s : V2.State) :
  unit_draw draw -> V2_consistent s -> V2_consistent (V2.playNext draw e s).
Proof.
  intros Hd Hs. destruct (V2.currentPlaylist s) as [|t0 r] eqn:Hp.
  - unfold V2.playNext. rewrite Hp. exact Hs.
  - destruct (V2_playNext_shape draw e s) as (i & t & Hi & _ & ->);
      [rewrite Hp; discriminate | apply Hs | exact Hd |].
    apply V2_play_at; [lia | exact Hs].
Qed.

Lemma V2_playPrev_consistent (draw : Q) (e : PlayEnv) (s : V2.State) :
  unit_draw draw -> V2_consistent s -> V2_consistent (V2.playPrev draw e s).
Proof.
  intros Hd Hs. destruct (V2.currentPlaylist s) as [|t0 r] eqn:Hp.
  - unfold V2.playPrev. rewrite Hp. exact Hs.
  - destruct (V2_playPrev_shape draw e s) as (i & t & Hi & _ & ->);
      [rewrite Hp; discriminate | apply Hs | exact Hd |].
    apply V2_play_at; [lia | exact Hs].
Qed.

Lemma V2_session_consistent (s : V2.State) : V2_session s -> V2_consistent s.
Proof.
  induction 1 as [ | s f rA rB s' _ IH E | s e i t _ IH Ht | s d e _ IH Hd
                   | s d e _ IH Hd | s _ IH | s _ IH | s _ IH | s _ IH | s _ IH
                   | s acc _ IH | s p dur d e _ IH Hd | s x l w dur s' _ IH E ].
  - repeat split; cbn; try lia; auto.
  - destruct (V2_searchMusic_frame _ _ _ _ _ E) as (Hi & Hc & Hr).
    destruct IH as (H1 & _ & H3). unfold V2_consistent.
    rewrite Hi, Hc, Hr, rendered_render. auto.
  - apply V2_play_at; [eapply at_index_some_nonneg; exact Ht | exact IH].
  - apply V2_playNext_consistent; assumption.
  - apply V2_playPrev_consistent; assumption.
  - exact IH.
  - exact IH.
  - exact IH.
  - exact IH.
  - exact IH.
  - unfold V2_togglePlay. destruct (paused (V2.audio s)); exact IH.
  - unfold V2_onTimeUpdate.
    destruct (near_end (currentTime (V2.audio s)) dur); [|exact IH].
    destruct (V2.isRepeat s); [exact IH|].
    apply V2_playNext_consistent; assumption.
  - unfold V2_seek in E. inv_bind E. injection E as <-. exact IH.
Qed.

Lemma V1_playNext_consistent (draws : list Q) (e : PlayEnv) (s s' : V1.State) :
  Forall unit_draw draws -> V1_consistent s ->
  V1.playNext draws e s = Some s' -> V1_consistent s'.
Proof.
  intros Hd Hs. pose proof Hs as (Hc & _).
  unfold V1.playNext.
  destruct (Z.eqb_spec (len (V1.currentPlaylist s)) 0) as [_|Hn].
  { intros E. injection E as <-. exact Hs. }
  pose proof (len_nonneg (V1.currentPlaylist s)) as Hn0.
  assert (Hplay : forall i, 0 <= i < len (V1.currentPlaylist s) ->
            forall s0,
              match at_index (V1.currentPlaylist (V1.set_currentTrackIndex i s))
                             (V1.currentTrackIndex (V1.set_currentTrackIndex i s)) with
              | Some nextTrack => Some (V1.playTrack e nextTrack (V1.set_currentTrackIndex i s))
              | None => Some (V1.set_currentTrackIndex i s)
              end = Some s0 -> V1_consistent s0).
  { intros i Hi s0. cbn [V1.currentPlaylist V1.currentTrackIndex V1.set_currentTrackIndex].
    destruct (at_index_in_range _ _ Hi) as [t ->]. intros E. injection E as <-.
    apply V1_play_at; [lia | exact Hs]. }
  destruct (V1.isShuffle s).
  - destruct (Z.gtb_spec (len (V1.currentPlaylist s)) 1) as [Hgt|Hle].
    + destruct (V1.resample _ _ draws) as [i|] eqn:E; [|discriminate].
      apply resample_sound in E; [|exact Hd|lia]. apply Hplay. apply E.
    + cbn [V1.currentPlaylist V1.currentTrackIndex V1.set_currentTrackIndex].
      destruct (at_index (V1.currentPlaylist s) (V1.currentTrackIndex s)) as [t|] eqn:Ht;
        intros E; injection E as <-.
      * apply V1_play_at; [eapply at_index_some_nonneg; exact Ht | exact Hs].
      * exact Hs.
  - rewrite rem_next by lia. apply Hplay. apply Z.mod_pos_bound. lia.
Qed.

Lemma V1_playPrev_consistent (e : PlayEnv) (s : V1.State) :
  V1_consistent s -> V1_consistent (V1.playPrev e s).
Proof.
  intros Hs. pose proof Hs as (Hc & _). unfold V1.playPrev.
  destruct (Z.eqb_spec (len (V1.currentPlaylist s)) 0) as [_|Hn]; [exact Hs|].
  pose proof (len_nonneg (V1.currentPlaylist s)) as Hn0.
  rewrite rem_prev by lia.
  assert (Hi : 0 <= (V1.currentTrackIndex s - 1) mod len (V1.currentPlaylist s)
               < len (V1.currentPlaylist s)) by (apply Z.mod_pos_bound; lia).
  cbn [V1.currentPlaylist V1.currentTrackIndex V1.set_currentTrackIndex].
  destruct (at_index_in_range _ _ Hi) as [t ->].
  apply V1_play_at; [lia | exact Hs].
Qed.

Lemma V1_session_consistent (s : V1.State) : V1_session s -> V1_consistent s.
Proof.
  induction 1 as [ | s f rA rB s' _ IH E | s e i t _ IH Ht | s draws e s' _ IH Hd E
                   | s e _ IH | s _ IH | s _ IH | s _ IH | s _ IH | s acc _ IH
                   | s draws e s' _ IH Hd E | s x l w dur s' _ IH E ].
  - repeat split; cbn; try lia; auto.
  - destruct (V1_searchMusic_frame _ _ _ _ _ E) as (Hi & Hc & Hr).
    destruct IH as (H1 & _ & H3 & H4). unfold V1_consistent.
    rewrite Hi, Hc, Hr, rendered_render.
    unfold V1.searchMusic in E. destruct (search_tracks f rA rB); [|discriminate].
    cbn in E. injection E as <-. cbn. auto.
  - apply V1_play_at; [eapply at_index_some_nonneg; exact Ht | exact IH].
  - eapply V1_playNext_consistent; eassumption.
  - apply V1_playPrev_consistent. exact IH.
  - exact IH.
  - exact IH.
  - destruct IH as (H1 & H2 & H3 & _). repeat split; cbn; auto; apply H3.
  - destruct IH as (H1 & H2 & H3 & _). repeat split; cbn; auto; apply H3.
  - unfold V1_onPlayClick. destruct (paused (V1.audio s)); exact IH.
  - unfold V1_onEnded in E.
    assert (Hset : forall s0, V1_consistent s0 -> V1_consistent (V1_set_playBtn V1.IconPause s0))
      by (intros s0 H0; exact H0).
    destruct (V1.isRepeat s).
    + injection E as <-. apply Hset. exact IH.
    + destruct (len (V1.currentPlaylist s) >? 0).
      * destruct (V1.playNext draws e s) as [s0|] eqn:E0; [|discriminate].
        injection E as <-. apply Hset. eapply V1_playNext_consistent; eassumption.
      * injection E as <-. apply Hset. exact IH.
  - unfold V1_seek in E. inv_bind E. injection E as <-. exact IH.
Qed.



(** X12. In a session, a click on the [i]-th rendered result plays the
    [i]-th track of the playlist: afterwards the cursor is [i] and the
    current track is the clicked one, which is the playlist entry under the
    cursor.  This holds even if the stream lookup of the track fails. *)
Theorem click_plays_the_clicked_track
    (e : PlayEnv) (i : Z) (t : Track) (s1 : V1.State) (s2 : V2.State) :
  (V1_session s1 -> at_index (rendered (V1.musicResults s1)) i = Some t ->
   V1.currentTrackIndex (V1.clickItem e i t s1) = i
   /\ V1.currentTrack (V1.clickItem e i t s1) = Some t
   /\ at_index (V1.currentPlaylist (V1.clickItem e i t s1))
               (V1.currentTrackIndex (V1.clickItem e i t s1)) = Some t)
  /\ (V2_session s2 -> at_index (rendered (V2.musicResults s2)) i = Some t ->
      V2.currentTrackIndex (V2.clickItem e i t s2) = i
      /\ V2.currentTrack (V2.clickItem e i t s2) = Some t
      /\ at_index (V2.currentPlaylist (V2.clickItem e i t s2))
                  (V2.currentTrackIndex (V2.clickItem e i t s2)) = Some t).
Proof.
  split.
  - intros Hs Ht. pose proof (V1_session_consistent _ Hs) as Hc.
    destruct (V1_play_at e t i s1 (at_index_some_nonneg _ _ _ Ht) Hc) as (_ & Hi & Hct & Hp).
    unfold V1.clickItem. rewrite Hi, Hct, Hp.
    destruct Hc as (_ & Hr & _). rewrite <- Hr. auto.
  - intros Hs Ht. pose proof (V2_session_consistent _ Hs) as Hc.
    destruct (V2_play_at e t i s2 (at_index_some_nonneg _ _ _ Ht) Hc) as (_ & Hi & Hct & Hp).
    unfold V2.clickItem. rewrite Hi, Hct, Hp.
    destruct Hc as (_ & Hr & _). rewrite <- Hr. auto.
Qed.

Lemma click_plays_the_clicked_track_witness :
  V2.currentTrack
    (V2.clickItem env_offline 3 (y_track "y3" "id3")
       (V2_after_search "all" two_from_audius three_from_piped V2.init))
  = Some (y_track "y3" "id3").
Proof.
  apply (proj2 (click_plays_the_clicked_track env_offline 3 (y_track "y3" "id3") V1.init
                  (V2_after_search "all" two_from_audius three_from_piped V2.init))).
  - apply (V2_s_search V2.init "all" two_from_audius three_from_piped);
      [apply V2_s_init | reflexivity].
  - reflexivity.
Defined.

(** X13. In a session with a non-empty playlist, next and previous always
    land on a track of the playlist: afterwards the current track is the
    playlist entry under the cursor.  For the legacy [playNext] this needs
    shuffle off or more than one track. *)
Theorem navigation_lands_on_a_track
    (draw : Q) (draws : list Q) (e : PlayEnv) (s1 : V1.State) (s2 : V2.State) :
  (V2_session s2 -> V2.currentPlaylist s2 <> [] -> unit_draw draw ->
   (exists t, V2.currentTrack (V2.playNext draw e s2) = Some t
              /\ at_index (V2.currentPlaylist (V2.playNext draw e s2))
                          (V2.currentTrackIndex (V2.playNext draw e s2)) = Some t)
   /\ (exists t, V2.currentTrack (V2.playPrev draw e s2) = Some t
                 /\ at_index (V2.currentPlaylist (V2.playPrev draw e s2))
                             (V2.currentTrackIndex (V2.playPrev draw e s2)) = Some t))
  /\ (V1_session s1 -> V1.currentPlaylist s1 <> [] ->
      exists t, V1.currentTrack (V1.playPrev e s1) = Some t
                /\ at_index (V1.currentPlaylist (V1.playPrev e s1))
                            (V1.currentTrackIndex (V1.playPrev e s1)) = Some t)
  /\ (V1_session s1 -> V1.currentPlaylist s1 <> [] ->
      V1.isShuffle s1 = false \/ 1 < len (V1.currentPlaylist s1) ->
      Forall unit_draw draws ->
      forall s', V1.playNext draws e s1 = Some s' ->
                 exists t, V1.currentTrack s' = Some t
                           /\ at_index (V1.currentPlaylist s') (V1.currentTrackIndex s')
                              = Some t).
Proof.
  split; [|split].
  - intros Hs Hne Hd. pose proof (V2_session_consistent _ Hs) as Hc. split.
    + destruct (V2_playNext_shape draw e s2 Hne (proj1 Hc) Hd) as (i & t & Hi & Ht & ->).
      destruct (V2_play_at e t i s2 (proj1 Hi) Hc) as (_ & Hx & Hct & Hp).
      exists t. rewrite Hx, Hct, Hp. auto.
    + destruct (V2_playPrev_shape draw e s2 Hne (proj1 Hc) Hd) as (i & t & Hi & Ht & ->).
      destruct (V2_play_at e t i s2 (proj1 Hi) Hc) as (_ & Hx & Hct & Hp).
      exists t. rewrite Hx, Hct, Hp. auto.
  - intros Hs Hne. pose proof (V1_session_consistent _ Hs) as Hc.
    pose proof (len_pos _ Hne) as Hn. unfold V1.playPrev.
    destruct (Z.eqb_spec (len (V1.currentPlaylist s1)) 0) as [E|_]; [lia|].
    rewrite rem_prev by (try exact Hn; apply Hc).
    assert (Hi : 0 <= (V1.currentTrackIndex s1 - 1) mod len (V1.currentPlaylist s1)
                 < len (V1.currentPlaylist s1)) by (apply Z.mod_pos_bound; lia).
    cbn [V1.currentPlaylist V1.currentTrackIndex V1.set_currentTrackIndex].
    destruct (at_index_in_range _ _ Hi) as [t Ht]. rewrite Ht.
    destruct (V1_play_at e t _ s1 (proj1 Hi) Hc) as (_ & Hx & Hct & Hp).
    exists t. rewrite Hx, Hct, Hp. auto.
  - intros Hs Hne Hmode Hd s'. pose proof (V1_session_consistent _ Hs) as Hc.
    pose proof (len_pos _ Hne) as Hn. unfold V1.playNext.
    destruct (Z.eqb_spec (len (V1.currentPlaylist s1)) 0) as [E|_]; [lia|].
    assert (Hplay : forall i, 0 <= i < len (V1.currentPlaylist s1) ->
              match at_index (V1.currentPlaylist (V1.set_currentTrackIndex i s1))
                             (V1.currentTrackIndex (V1.set_currentTrackIndex i s1)) with
              | Some nextTrack => Some (V1.playTrack e nextTrack (V1.set_currentTrackIndex i s1))
              | None => Some (V1.set_currentTrackIndex i s1)
              end = Some s' ->
              exists t, V1.currentTrack s' = Some t
                        /\ at_index (V1.currentPlaylist s') (V1.currentTrackIndex s') = Some t).
    { intros i Hi. cbn [V1.currentPlaylist V1.currentTrackIndex V1.set_currentTrackIndex].
      destruct (at_index_in_range _ _ Hi) as [t Ht]. rewrite Ht.
      intros E. injection E as <-.
      destruct (V1_play_at e t i s1 (proj1 Hi) Hc) as (_ & Hx & Hct & Hp).
      exists t. rewrite Hx, Hct, Hp. auto. }
    destruct (V1.isShuffle s1).
    + destruct Hmode as [Hf | Hgt]; [discriminate|].
      destruct (Z.gtb_spec (len (V1.currentPlaylist s1)) 1) as [_|Hle]; [|lia].
      destruct (V1.resample _ _ draws) as [i|] eqn:E; [|discriminate].
      apply resample_sound in E; [|exact Hd|lia]. apply Hplay. apply E.
    + rewrite rem_next by (try exact Hn; apply Hc). apply Hplay.
      apply Z.mod_pos_bound. exact Hn.
Qed.

Lemma navigation_lands_on_a_track_witness :
  exists t,
    V2.currentTrack
      (V2.playNext 0%Q env_offline
         (V2_after_search "all" two_from_audius three_from_piped V2.init)) = Some t
    /\ at_index
         (V2.currentPlaylist
            (V2.playNext 0%Q env_offline
               (V2_after_search "all" two_from_audius three_from_piped V2.init)))
         (V2.currentTrackIndex
            (V2.playNext 0%Q env_offline
               (V2_after_search "all" two_from_audius three_from_piped V2.init)))
       = Some t.
Proof.
  apply (proj1 (navigation_lands_on_a_track 0%Q [] env_offline V1.init
                  (V2_after_search "all" two_from_audius three_from_piped V2.init))).
  - apply (V2_s_search V2.init "all" two_from_audius three_from_piped);
      [apply V2_s_init | reflexivity].
  - discriminate.
  - split; unfold Qle, Qlt; cbn; lia.
Defined.

(** * The two views of the advanced player *)

Lemma V2_playTrack_views (e : PlayEnv) (t : option Track) (s : V2.State) :
  (fst (V2.playTrack e t s) = V2.Played -> V2_views_exclusive (snd (V2.playTrack e t s)))
  /\ (V2_views_exclusive s -> V2_views_exclusive (snd (V2.playTrack e t s))).
Proof.
  unfold V2.playTrack. cbn [V2.currentTrackIndex V2.set_currentTrack].
  destruct (V2.currentTrackIndex s <? 0); destruct t as [tr|];
    try destruct (source tr); try destruct (V2.resolve (resolution e));
    cbn; unfold V2_views_exclusive; cbn; split; intros H;
    try discriminate; auto.
Qed.

Lemma V2_playNext_views (draw : Q) (e : PlayEnv) (s : V2.State) :
  V2_views_exclusive s -> V2_views_exclusive (V2.playNext draw e s).
Proof.
  intros H. unfold V2.playNext.
  destruct (len (V2.currentPlaylist s) =? 0); [exact H|].
  apply V2_playTrack_views. destruct (V2.isShuffle s); exact H.
Qed.

Lemma V2_playPrev_views (draw : Q) (e : PlayEnv) (s : V2.State) :
  V2_views_exclusive s -> V2_views_exclusive (V2.playPrev draw e s).
Proof.
  intros H. unfold V2.playPrev.
  destruct (len (V2.currentPlaylist s) =? 0); [exact H|].
  apply V2_playTrack_views. destruct (V2.isShuffle s); exact H.
Qed.

(** X14. The mini and the full view of the advanced player are never shown
    together, and the bottom navigation is hidden exactly while the full
    view is shown: [showMini], [showFull], the close handlers and every
    [playTrack] that runs to its end leave the page so, and no handler of
    the music section breaks it; hence it holds throughout a session that
    starts, as [V2.init] does, with both views hidden. *)
Theorem views_never_shown_together (s : V2.State) :
  V2_views_exclusive (V2.showMini s)
  /\ V2_views_exclusive (V2.showFull s)
  /\ V2_views_exclusive (V2.close s)
  /\ (forall e t, fst (V2.playTrack e t s) = V2.Played ->
                  V2_views_exclusive (snd (V2.playTrack e t s)))
  /\ (V2_views_exclusive s ->
      (forall e t, V2_views_exclusive (snd (V2.playTrack e t s)))
      /\ (forall e i t, V2_views_exclusive (V2.clickItem e i t s))
      /\ (forall draw e, V2_views_exclusive (V2.playNext draw e s))
      /\ (forall draw e, V2_views_exclusive (V2.playPrev draw e s))
      /\ V2_views_exclusive (V2.toggleShuffle s)
      /\ V2_views_exclusive (V2.toggleRepeat s)
      /\ (forall accepted, V2_views_exclusive (V2_togglePlay accepted s))
      /\ (forall duration draw e p,
             V2_views_exclusive (fst (V2_onTimeUpdate duration draw e (s, p))))
      /\ (forall filter rA rB s',
             V2.searchMusic filter rA rB s = Ok s' -> V2_views_exclusive s')
      /\ (forall clientX left width duration s',
             V2_seek clientX left width duration s = Ok s' -> V2_views_exclusive s'))
  /\ (V2_session s -> V2_views_exclusive s).
Proof.
  assert (Hstep : forall s0 : V2.State, V2_views_exclusive s0 ->
            (forall e t, V2_views_exclusive (snd (V2.playTrack e t s0)))
            /\ (forall e i t, V2_views_exclusive (V2.clickItem e i t s0))
            /\ (forall draw e, V2_views_exclusive (V2.playNext draw e s0))
            /\ (forall draw e, V2_views_exclusive (V2.playPrev draw e s0))
            /\ V2_views_exclusive (V2.toggleShuffle s0)
            /\ V2_views_exclusive (V2.toggleRepeat s0)
            /\ (forall accepted, V2_views_exclusive (V2_togglePlay accepted s0))
            /\ (forall duration draw e p,
                   V2_views_exclusive (fst (V2_onTimeUpdate duration draw e (s0, p))))
            /\ (forall filter rA rB s',
                   V2.searchMusic filter rA rB s0 = Ok s' -> V2_views_exclusive s')
            /\ (forall clientX left width duration s',
                   V2_seek clientX left width duration s0 = Ok s' -> V2_views_exclusive s')).
  { intros s0 H.
    split; [|split; [|split; [|split; [|split; [|split; [|split; [|split; [|split]]]]]]]].
    - intros e t. apply V2_playTrack_views. exact H.
    - intros e i t. unfold V2.clickItem. apply V2_playTrack_views. exact H.
    - intros. apply V2_playNext_views. exact H.
    - intros. apply V2_playPrev_views. exact H.
    - exact H.
    - exact H.
    - intros accepted. unfold V2_togglePlay. destruct (paused (V2.audio s0)); exact H.
    - intros duration draw e p. unfold V2_onTimeUpdate.
      destruct (near_end (currentTime (V2.audio s0)) duration); [|exact H].
      destruct (V2.isRepeat s0); [exact H|]. apply V2_playNext_views. exact H.
    - intros filter rA rB s'. unfold V2.searchMusic.
      destruct (search_tracks filter rA rB); [|discriminate].
      cbn. intros E. injection E as <-. exact H.
    - intros x l w d s' E. unfold V2_seek in E. inv_bind E. injection E as <-. exact H. }
  assert (Hset : forall s0 : V2.State,
            V2_views_exclusive (V2.showMini s0) /\ V2_views_exclusive (V2.showFull s0)
            /\ V2_views_exclusive (V2.close s0))
    by (intros s0; unfold V2_views_exclusive; cbn; auto).
  split; [apply Hset|]. split; [apply Hset|]. split; [apply Hset|].
  split; [intros e t; apply V2_playTrack_views|].
  split; [apply Hstep|].
  induction 1 as [ | s f rA rB s' _ IH E | s e i t _ IH Ht | s d e _ IH Hd
                   | s d e _ IH Hd | s _ IH | s _ IH | s _ IH | s _ IH | s _ IH
                   | s acc _ IH | s p dur d e _ IH Hd | s x l w dur s' _ IH E ].
  - unfold V2_views_exclusive. cbn. auto.
  - destruct (Hstep s IH) as (_ & _ & _ & _ & _ & _ & _ & _ & H & _). eapply H. exact E.
  - apply (Hstep s IH).
  - apply (Hstep s IH).
  - apply (Hstep s IH).
  - exact IH.
  - exact IH.
  - apply Hset.
  - apply Hset.
  - apply Hset.
  - apply (Hstep s IH).
  - apply (Hstep s IH).
  - destruct (Hstep s IH) as (_ & _ & _ & _ & _ & _ & _ & _ & _ & H). eapply H. exact E.
Qed.

Lemma views_never_shown_together_witness :
  V2_views_exclusive
    (V2.showFull
       (V2.clickItem env_online 0 (a_track "a0" "https://cdn/a0")
          (V2_after_search "all" two_from_audius three_from_piped V2.init))).
Proof.
  apply (proj2 (proj2 (proj2 (proj2 (proj2 (views_never_shown_together _)))))).
  apply V2_s_showFull. apply V2_s_click; [|reflexivity].
  apply (V2_s_search V2.init "all" two_from_audius three_from_piped);
    [apply V2_s_init | reflexivity].
Defined.

(** * Theme and settings *)

Lemma contains_add_same (c : string) (l : list string) :
  contains c (classList_add c l) = true.
Proof.
  unfold classList_add. destruct (contains c l) eqn:E; [exact E|].
  unfold contains. rewrite existsb_app. cbn. rewrite String.eqb_refl.
  apply orb_true_iff. right. reflexivity.
Qed.

Lemma contains_add_other (c d : string) (l : list string) :
  c <> d -> contains c (classList_add d l) = contains c l.
Proof.
  intros H. unfold classList_add. destruct (contains d l); [reflexivity|].
  unfold contains. rewrite existsb_app. cbn.
  apply String.eqb_neq in H. rewrite H. cbn. apply orb_false_r.
Qed.

Lemma contains_remove_same (c : string) (l : list string) :
  contains c (classList_remove c l) = false.
Proof.
  unfold contains, classList_remove. induction l as [|d l IH]; [reflexivity|].
  cbn. destruct (String.eqb c d) eqn:E; cbn; [exact IH | rewrite E, IH; reflexivity].
Qed.

Lemma contains_remove_other (c d : string) (l : list string) :
  c <> d -> contains c (classList_remove d l) = contains c l.
Proof.
  intros H. unfold contains, classList_remove. induction l as [|x l IH]; [reflexivity|].
  cbn. destruct (String.eqb d x) eqn:E; cbn.
  - apply String.eqb_eq in E. subst x. apply String.eqb_neq in H. rewrite H. exact IH.
  - rewrite IH. reflexivity.
Qed.

Ltac classes :=
  repeat first
    [ rewrite contains_add_same
    | rewrite contains_remove_same
    | rewrite contains_add_other by discriminate
    | rewrite contains_remove_other by discriminate ].

Lemma playClickSound_frame (ok : bool) (p : Page) :
  bodyClasses (playClickSound ok p) = bodyClasses p
  /\ localStorage (playClickSound ok p) = localStorage p
  /\ animationsChecked (playClickSound ok p) = animationsChecked p
  /\ soundsChecked (playClickSound ok p) = soundsChecked p
  /\ rootStyle (playClickSound ok p) = rootStyle p
  /\ dpiValue (playClickSound ok p) = dpiValue p
  /\ fontValue (playClickSound ok p) = fontValue p
  /\ animationValue (playClickSound ok p) = animationValue p.
Proof.
  unfold playClickSound.
  destruct (negb _); [repeat split|]. destruct ok; repeat split.
Qed.

Lemma applyFontClass_other (c font : string) (l : list string) :
  ~ In c font_classes -> contains c (applyFontClass font l) = contains c l.
Proof.
  intros H. unfold font_classes in H. cbn in H.
  assert (H1 : c <> "font-serif") by (intros ->; tauto).
  assert (H2 : c <> "font-cursive") by (intros ->; tauto).
  assert (H3 : c <> "font-mono") by (intros ->; tauto).
  assert (H4 : c <> "font-fantasy") by (intros ->; tauto).
  assert (H5 : c <> "font-elegant") by (intros ->; tauto).
  unfold applyFontClass.
  repeat match goal with |- context [if ?b then _ else _] => destruct b end;
    rewrite ?contains_add_other by assumption;
    rewrite !contains_remove_other by assumption; reflexivity.
Qed.

(** Membership of a class that is neither a font class nor
    [no-animations] is decided by the theme step of the load. *)
Lemma load_keeps_storage (p : Page) :
  localStorage (applySavedTheme p) = localStorage p
  /\ localStorage (loadAnimations p) = localStorage p
  /\ localStorage (loadSounds p) = localStorage p
  /\ localStorage (loadDpi p) = localStorage p
  /\ localStorage (loadFont p) = localStorage p
  /\ localStorage (loadAnimSpeed p) = localStorage p.
Proof.
  unfold applySavedTheme, loadAnimations, loadSounds, loadDpi, loadFont, loadAnimSpeed.
  repeat split;
    repeat match goal with
           | |- context [match ?x with Some _ => _ | None => _ end] => destruct x
           | |- context [if ?b then _ else _] => destruct b
           end; reflexivity.
Qed.

Lemma loadSettings_other_class (c : string) (p : Page) :
  ~ In c font_classes -> c <> "no-animations" ->
  contains c (bodyClasses (loadSettings p)) = contains c (bodyClasses (applySavedTheme p)).
Proof.
  intros Hf Hn. unfold loadSettings. generalize (applySavedTheme p). clear p. intros p.
  unfold loadAnimSpeed, loadFont, loadDpi, loadSounds, loadAnimations.
  repeat match goal with
         | |- context [match ?x with Some _ => _ | None => _ end] => destruct x
         | |- context [if ?b then _ else _] => destruct b
         end; cbn -[contains applyFontClass classList_add classList_remove];
    rewrite ?applyFontClass_other by assumption;
    rewrite ?contains_add_other by assumption; reflexivity.
Qed.

Lemma onThemeClick_effect (t : Theme) (ok : bool) (p : Page) :
  bodyClasses (onThemeClick t ok p)
  = match t with
    | light =>
        classList_add "theme-light"
          (classList_remove "theme-glass" (classList_remove "theme-dark" (bodyClasses p)))
    | dark =>
        classList_add "theme-dark"
          (classList_remove "theme-glass" (classList_remove "theme-light" (bodyClasses p)))
    | glass =>
        classList_add "theme-glass"
          (classList_remove "theme-dark" (classList_remove "theme-light" (bodyClasses p)))
    end
  /\ localStorage (onThemeClick t ok p) = setItem "theme" (theme_name t) (localStorage p).
Proof.
  unfold onThemeClick. cbv zeta.
  match goal with |- context [playClickSound ok ?q] =>
    destruct (playClickSound_frame ok q) as (Hb & Hs & _) end.
  rewrite Hb, Hs. split; reflexivity.
Qed.

Lemma theme_class_other (u : Theme) :
  ~ In (theme_class u) font_classes /\ theme_class u <> "no-animations".
Proof. destruct u; cbn; split; try discriminate; intuition discriminate. Qed.

(** X15. Choosing a theme is exclusive and survives a reload: after a
    click on a theme button the body carries that theme's class and neither
    of the other two, its other classes are untouched, and the choice is
    stored; when the page is loaded again with that storage (its HTML body
    carrying no theme class) the body carries exactly the chosen theme's
    class again. *)
Theorem theme_choice_exclusive_and_persistent (t : Theme) (ok : bool) (p html : Page) :
  (forall u, contains (theme_class u) (bodyClasses (onThemeClick t ok p)) = true <-> u = t)
  /\ (forall c, (forall u, c <> theme_class u) ->
                contains c (bodyClasses (onThemeClick t ok p)) = contains c (bodyClasses p))
  /\ getItem "theme" (localStorage (onThemeClick t ok p)) = Some (theme_name t)
  /\ ((forall u, contains (theme_class u) (bodyClasses html) = false) ->
      forall u,
        contains (theme_class u) (bodyClasses (reload html (onThemeClick t ok p))) = true
        <-> u = t).
Proof.
  destruct (onThemeClick_effect t ok p) as [Hb Hs].
  split; [|split; [|split]].
  - intros u. rewrite Hb.
    destruct t, u; cbn [theme_class]; classes;
      split; intros H; try reflexivity; try discriminate.
  - intros c Hc. rewrite Hb.
    pose proof (Hc light) as H1. pose proof (Hc dark) as H2. pose proof (Hc glass) as H3.
    cbn [theme_class] in H1, H2, H3.
    destruct t; rewrite contains_add_other, !contains_remove_other by assumption;
      reflexivity.
  - rewrite Hs. destruct t; reflexivity.
  - intros Hh u. unfold reload.
    destruct (theme_class_other u) as [Hf Hn].
    rewrite (loadSettings_other_class _ _ Hf Hn).
    unfold applySavedTheme. cbn [localStorage set_localStorage]. rewrite Hs.
    pose proof (Hh light) as H1. pose proof (Hh dark) as H2. pose proof (Hh glass) as H3.
    cbn [theme_class] in H1, H2, H3.
    destruct t, u; cbn -[contains classList_add]; classes;
      rewrite ?H1, ?H2, ?H3; split; intros H; try reflexivity; try discriminate.
Qed.

Lemma theme_choice_exclusive_and_persistent_witness :
  contains "theme-dark"
    (bodyClasses (reload first_visit
                    (onThemeClick dark true (onThemeClick glass true first_visit))))
  = true.
Proof.
  apply (proj2 (proj2 (proj2 (proj2 (theme_choice_exclusive_and_persistent dark true
                                       (onThemeClick glass true first_visit) first_visit)))
                      (fun u => match u with light | dark | glass => eq_refl end) dark)).
  reflexivity.
Defined.






Lemma load_no_animations (p : Page) :
  contains "no-animations" (bodyClasses (loadSettings p))
  = contains "no-animations" (bodyClasses (loadAnimations (applySavedTheme p)))
  /\ animationsChecked (loadSettings p)
     = animationsChecked (loadAnimations (applySavedTheme p))
  /\ soundsChecked (loadSettings p)
     = soundsChecked (loadSounds (loadAnimations (applySavedTheme p))).
Proof.
  unfold loadSettings. generalize (loadAnimations (applySavedTheme p)). intros q.
  unfold loadAnimSpeed, loadFont, loadDpi.
  assert (Hn : ~ In "no-animations" font_classes) by (cbn; intuition discriminate).
  repeat match goal with
         | |- context [match saved ?k ?x with Some _ => _ | None => _ end] =>
             destruct (saved k x)
         end; cbn -[contains applyFontClass loadSounds];
    rewrite ?applyFontClass_other by exact Hn; repeat split;
    unfold loadSounds;
    repeat match goal with
           | |- context [match ?x with Some _ => _ | None => _ end] => destruct x
           | |- context [if ?b then _ else _] => destruct b
           end; reflexivity.
Qed.

Lemma applySavedTheme_frame (p : Page) :
  contains "no-animations" (bodyClasses (applySavedTheme p))
  = contains "no-animations" (bodyClasses p)
  /\ animationsChecked (applySavedTheme p) = animationsChecked p
  /\ soundsChecked (applySavedTheme p) = soundsChecked p.
Proof.
  unfold applySavedTheme.
  repeat match goal with
         | |- context [match ?x with Some _ => _ | None => _ end] => destruct x
         | |- context [if ?b then _ else _] => destruct b
         end; cbn -[contains classList_add];
    rewrite ?contains_add_other by discriminate; auto.
Qed.

(** X17. The animations and sounds switches survive a reload: after the
    animations switch is set to [b] the body carries [no-animations]
    exactly when [b] is off, and after either switch is set to [b], loading
    the page again with the storage left behind (the HTML delivering both
    switches checked and no [no-animations] class) puts the switch back to
    [b] and, for animations, the class back on the body exactly when [b] is
    off. *)
Theorem switches_survive_reload (b : bool) (p html : Page) :
  contains "no-animations" (bodyClasses (onAnimationsChange b p)) = negb b
  /\ animationsChecked (onAnimationsChange b p) = b
  /\ soundsChecked (onSoundsChange b p) = b
  /\ (animationsChecked html = true ->
      contains "no-animations" (bodyClasses html) = false ->
      animationsChecked (reload html (onAnimationsChange b p)) = b
      /\ contains "no-animations" (bodyClasses (reload html (onAnimationsChange b p)))
         = negb b)
  /\ (soundsChecked html = true ->
      soundsChecked (reload html (onSoundsChange b p)) = b).
Proof.
  split; [|split; [|split; [|split]]].
  - destruct b; cbn -[contains classList_add classList_remove]; classes; reflexivity.
  - destruct b; reflexivity.
  - reflexivity.
  - intros Hc Hn. unfold reload.
    set (q := set_localStorage (localStorage (onAnimationsChange b p)) html).
    destruct (load_no_animations q) as (H1 & H2 & _). rewrite H1, H2.
    destruct (applySavedTheme_frame q) as (F1 & F2 & _).
    destruct (load_keeps_storage q) as (Hs & _).
    unfold loadAnimations. rewrite Hs.
    assert (Hg : getItem "animations" (localStorage q)
                 = Some (if b then "on" else "off")) by (destruct b; reflexivity).
    rewrite Hg.
    destruct b; cbn -[contains classList_add];
      rewrite ?contains_add_same, ?F1, ?F2; cbn; auto.
  - intros Hc. unfold reload.
    set (q := set_localStorage (localStorage (onSoundsChange b p)) html).
    destruct (load_no_animations q) as (_ & _ & H3). rewrite H3.
    destruct (applySavedTheme_frame q) as (_ & _ & F3).
    assert (Hsnd : soundsChecked (loadAnimations (applySavedTheme q))
                   = soundsChecked (applySavedTheme q)).
    { unfold loadAnimations.
      repeat match goal with
             | |- context [match ?x with Some _ => _ | None => _ end] => destruct x
             | |- context [if ?b then _ else _] => destruct b
             end; reflexivity. }
    destruct (load_keeps_storage q) as (Hs1 & _).
    destruct (load_keeps_storage (applySavedTheme q)) as (_ & Hs2 & _).
    unfold loadSounds. rewrite Hs2, Hs1.
    assert (Hg : getItem "sounds" (localStorage q)
                 = Some (if b then "on" else "off")) by reflexivity.
    rewrite Hg. destruct b; cbn; rewrite ?Hsnd, ?F3; auto.
Qed.

Lemma switches_survive_reload_witness :
  animationsChecked (reload first_visit (onAnimationsChange false first_visit)) = false
  /\ contains "no-animations"
       (bodyClasses (reload first_visit (onAnimationsChange false first_visit)))
     = true.
Proof.
  apply (proj1 (proj2 (proj2 (proj2 (switches_survive_reload false first_visit first_visit))))
               eq_refl eq_refl).
Defined.

Lemma load_keeps_sliders (p : Page) :
  (rootStyle (applySavedTheme p) = rootStyle p /\ dpiValue (applySavedTheme p) = dpiValue p
   /\ animationValue (applySavedTheme p) = animationValue p)
  /\ (rootStyle (loadAnimations p) = rootStyle p /\ dpiValue (loadAnimations p) = dpiValue p
      /\ animationValue (loadAnimations p) = animationValue p)
  /\ (rootStyle (loadSounds p) = rootStyle p /\ dpiValue (loadSounds p) = dpiValue p
      /\ animationValue (loadSounds p) = animationValue p)
  /\ (rootStyle (loadFont p) = rootStyle p /\ dpiValue (loadFont p) = dpiValue p
      /\ animationValue (loadFont p) = animationValue p).
Proof.
  unfold applySavedTheme, loadAnimations, loadSounds, loadFont.
  repeat split;
    repeat match goal with
           | |- context [match ?x with Some _ => _ | None => _ end] => destruct x
           | |- context [if ?b then _ else _] => destruct b
           end; reflexivity.
Qed.

Lemma before_sliders (p : Page) :
  localStorage (loadSounds (loadAnimations (applySavedTheme p))) = localStorage p
  /\ rootStyle (loadSounds (loadAnimations (applySavedTheme p))) = rootStyle p
  /\ dpiValue (loadSounds (loadAnimations (applySavedTheme p))) = dpiValue p
  /\ animationValue (loadSounds (loadAnimations (applySavedTheme p))) = animationValue p.
Proof.
  destruct (load_keeps_storage p) as (S1 & _).
  destruct (load_keeps_storage (applySavedTheme p)) as (_ & S2 & _).
  destruct (load_keeps_storage (loadAnimations (applySavedTheme p))) as (_ & _ & S3 & _).
  destruct (load_keeps_sliders p) as ((A1 & A2 & A3) & _).
  destruct (load_keeps_sliders (applySavedTheme p)) as (_ & (B1 & B2 & B3) & _).
  destruct (load_keeps_sliders (loadAnimations (applySavedTheme p)))
    as (_ & _ & (C1 & C2 & C3) & _).
  repeat split; congruence.
Qed.

(** What the load does to the two sliders, as a function of what is
    stored under their keys. *)
Lemma loadSettings_sliders (p : Page) :
  (rootStyle (loadSettings p) "--dpi-scale"
   = match saved "dpi" p with
     | Some v => Some v
     | None => rootStyle p "--dpi-scale"
     end
   /\ dpiValue (loadSettings p)
      = match saved "dpi" p with
        | Some v => v
        | None => dpiValue p
        end)
  /\ (rootStyle (loadSettings p) "--anim-speed"
      = match saved "animSpeed" p with
        | Some v => Some v
        | None => rootStyle p "--anim-speed"
        end
      /\ animationValue (loadSettings p)
         = match saved "animSpeed" p with
           | Some v => v
           | None => animationValue p
           end).
Proof.
  unfold loadSettings.
  destruct (before_sliders p) as (Hs & Hr & Hd & Ha).
  set (q := loadSounds (loadAnimations (applySavedTheme p))) in *.
  assert (Hdpi : saved "dpi" q = saved "dpi" p) by (unfold saved; rewrite Hs; reflexivity).
  assert (Hq : localStorage (loadFont (loadDpi q)) = localStorage p).
  { destruct (load_keeps_storage q) as (_ & _ & _ & H4 & _).
    destruct (load_keeps_storage (loadDpi q)) as (_ & _ & _ & _ & H5 & _). congruence. }
  assert (Hspeed : saved "animSpeed" (loadFont (loadDpi q)) = saved "animSpeed" p)
    by (unfold saved; rewrite Hq; reflexivity).
  destruct (load_keeps_sliders (loadDpi q)) as (_ & _ & _ & (F1 & F2 & F3)).
  unfold loadAnimSpeed. rewrite Hspeed.
  destruct (saved "animSpeed" p) as [v|];
    cbn [rootStyle dpiValue animationValue setProperty set_animationValue];
    rewrite ?F1, ?F2, ?F3; unfold loadDpi; rewrite Hdpi;
    destruct (saved "dpi" p) as [w|];
    cbn [rootStyle dpiValue animationValue setProperty set_dpiValue];
    rewrite ?Hr, ?Hd, ?Ha; repeat split; reflexivity.
Qed.

(** X18. The two sliders survive a reload: moving the DPI slider to [val]
    sets the property [--dpi-scale] to [val] and leaves [--anim-speed]
    alone, and the animation slider does the converse; loading the page
    again with the storage left behind sets the property and the slider
    back to [val], unless [val] is the empty string, which is stored but not
    applied. *)
Theorem sliders_survive_reload (val : string) (p html : Page) :
  (rootStyle (onDpiInput val p) "--dpi-scale" = Some val
   /\ rootStyle (onDpiInput val p) "--anim-speed" = rootStyle p "--anim-speed"
   /\ rootStyle (onAnimationInput val p) "--anim-speed" = Some val
   /\ rootStyle (onAnimationInput val p) "--dpi-scale" = rootStyle p "--dpi-scale")
  /\ (val <> "" ->
      rootStyle (reload html (onDpiInput val p)) "--dpi-scale" = Some val
      /\ dpiValue (reload html (onDpiInput val p)) = val
      /\ rootStyle (reload html (onAnimationInput val p)) "--anim-speed" = Some val
      /\ animationValue (reload html (onAnimationInput val p)) = val)
  /\ (rootStyle (reload html (onDpiInput "" p)) "--dpi-scale" = rootStyle html "--dpi-scale"
      /\ getItem "dpi" (localStorage (onDpiInput "" p)) = Some "").
Proof.
  split; [repeat split|]. split.
  - intros Hne. apply String.eqb_neq in Hne. unfold reload.
    destruct (loadSettings_sliders (set_localStorage (localStorage (onDpiInput val p)) html))
      as ((H1 & H2) & _).
    destruct (loadSettings_sliders
                (set_localStorage (localStorage (onAnimationInput val p)) html))
      as (_ & (H3 & H4)).
    rewrite H1, H2, H3, H4. unfold saved. cbn. rewrite Hne. auto.
  - split; [|reflexivity]. unfold reload.
    destruct (loadSettings_sliders (set_localStorage (localStorage (onDpiInput "" p)) html))
      as ((H1 & _) & _).
    rewrite H1. reflexivity.
Qed.

Lemma sliders_survive_reload_witness :
  rootStyle (reload first_visit (onDpiInput "1.25" first_visit)) "--dpi-scale" = Some "1.25".
Proof.
  apply (proj1 (proj2 (sliders_survive_reload "1.25" first_visit first_visit))).
  discriminate.
Defined.

(** X19. The click sound follows the sounds switch: [playClickSound]
    changes nothing but the count of sounds played; after the switch is set
    to [b] a sound is played exactly when [b] is on and the Web Audio calls
    go through; with nothing stored under [sounds], or the empty string,
    sounds are on; and a theme or font choice made after the switch was
    turned off is silent. *)
Theorem click_sound_follows_switch
    (ok b : bool) (t : Theme) (font : string) (p : Page) :
  beeps (playClickSound ok (onSoundsChange b p)) = (if b && ok then S (beeps p) else beeps p)
  /\ (getItem "sounds" (localStorage p) = None \/ getItem "sounds" (localStorage p) = Some "" ->
      beeps (playClickSound ok p) = if ok then S (beeps p) else beeps p)
  /\ (forall v, getItem "sounds" (localStorage p) = Some v -> v <> "" -> v <> "on" ->
                playClickSound ok p = p)
  /\ beeps (onThemeClick t ok (onSoundsChange false p)) = beeps p
  /\ beeps (onFontChange font ok (onSoundsChange false p)) = beeps p
  /\ bodyClasses (playClickSound ok p) = bodyClasses p
  /\ localStorage (playClickSound ok p) = localStorage p.
Proof.
  split; [|split; [|split; [|split; [|split]]]].
  - destruct b, ok; reflexivity.
  - intros [H | H]; unfold playClickSound; rewrite H; destruct ok; reflexivity.
  - intros v H Hne Hon. unfold playClickSound. rewrite H.
    apply String.eqb_neq in Hne, Hon. rewrite Hne, Hon. reflexivity.
  - destruct t, ok; reflexivity.
  - destruct ok; reflexivity.
  - split; apply playClickSound_frame.
Qed.

Lemma click_sound_follows_switch_witness :
  beeps (playClickSound true first_visit) = 1%nat.
Proof.
  apply (proj1 (proj2 (click_sound_follows_switch true true light "serif" first_visit))).
  left. reflexivity.
Defined.


(** * Navigation between the sections *)

Lemma nth_error_update_at (k : nat) (f : Element -> Element) (doc : list Element) :
  forall j,
    nth_error (update_at k f doc) j
    = if Nat.eqb j k then option_map f (nth_error doc j) else nth_error doc j.
Proof.
  revert k. induction doc as [|el r IH]; intros k j.
  - destruct k; destruct j; cbn; try reflexivity; destruct (Nat.eqb j k); reflexivity.
  - destruct k as [|k]; destruct j as [|j]; cbn [update_at nth_error Nat.eqb];
      try reflexivity. apply IH.
Qed.

Lemma index_of_id_deactivate (id cls : string) (doc : list Element) :
  index_of_id id (deactivate cls doc) = index_of_id id doc.
Proof.
  induction doc as [|el r IH]; [reflexivity|].
  cbn [deactivate map index_of_id]. fold (deactivate cls r). rewrite IH.
  destruct (has_class cls el); reflexivity.
Qed.

Lemma index_of_id_update_at (id c : string) (k : nat) (doc : list Element) :
  index_of_id id (update_at k (add_class c) doc) = index_of_id id doc.
Proof.
  revert k. induction doc as [|el r IH]; intros k; [destruct k; reflexivity|].
  destruct k as [|k]; cbn [update_at index_of_id add_class el_id]; [reflexivity|].
  rewrite IH. reflexivity.
Qed.

Lemma navigate_nth (k : nat) (doc : list Element) (item : Element) :
  nth_error doc k = Some item ->
  forall j,
    nth_error (navigate k doc) j
    = option_map (navigate_element k (index_of_id (target_of item) doc) j) (nth_error doc j).
Proof.
  intros Hk j. unfold navigate. rewrite Hk. cbv zeta. fold (target_of item).
  rewrite index_of_id_deactivate, index_of_id_update_at, index_of_id_deactivate.
  assert (Hbase : nth_error (deactivate "section"
                               (update_at k (add_class "active") (deactivate "nav-item" doc))) j
                  = option_map (navigate_element k None j) (nth_error doc j)).
  { unfold deactivate at 1. rewrite nth_error_map, nth_error_update_at.
    unfold deactivate. rewrite nth_error_map.
    unfold navigate_element.
    destruct (nth_error doc j) as [el|]; destruct (Nat.eqb j k); reflexivity. }
  destruct (index_of_id (target_of item) doc) as [j0|]; [|exact Hbase].
  rewrite nth_error_update_at, Hbase.
  unfold navigate_element.
  destruct (nth_error doc j) as [el|]; destruct (Nat.eqb j j0); reflexivity.
Qed.

Lemma length_update_at (k : nat) (f : Element -> Element) (doc : list Element) :
  List.length (update_at k f doc) = List.length doc.
Proof.
  revert k. induction doc as [|el r IH]; intros k; destruct k; cbn; auto.
Qed.

Lemma length_navigate (k : nat) (doc : list Element) :
  List.length (navigate k doc) = List.length doc.
Proof.
  unfold navigate. destruct (nth_error doc k); [|reflexivity]. cbv zeta.
  destruct (index_of_id _ _);
    rewrite ?length_update_at; unfold deactivate;
    rewrite length_map, length_update_at, length_map; reflexivity.
Qed.

Lemma has_class_add_remove (c d : string) (el : Element) :
  has_class c (add_class c el) = true
  /\ has_class c (remove_class c el) = false
  /\ (c <> d -> has_class c (add_class d el) = has_class c el)
  /\ (c <> d -> has_class c (remove_class d el) = has_class c el).
Proof.
  unfold has_class, add_class, remove_class. cbn [el_classes].
  split; [apply contains_add_same|]. split; [apply contains_remove_same|].
  split; intros H; [apply contains_add_other | apply contains_remove_other]; exact H.
Qed.

Lemma navigate_element_keeps (k : nat) (target : option nat) (j : nat) (el : Element) :
  el_id (navigate_element k target j el) = el_id el
  /\ data_section (navigate_element k target j el) = data_section el
  /\ (forall c, c <> "active" ->
                has_class c (navigate_element k target j el) = has_class c el).
Proof.
  unfold navigate_element. cbv zeta.
  split; [|split].
  - repeat match goal with
           | |- context [match ?x with Some _ => _ | None => _ end] => destruct x
           | |- context [if ?b then _ else _] => destruct b
           end; reflexivity.
  - repeat match goal with
           | |- context [match ?x with Some _ => _ | None => _ end] => destruct x
           | |- context [if ?b then _ else _] => destruct b
           end; reflexivity.
  - intros c Hc.
    assert (Ha : forall e, has_class c (add_class "active" e) = has_class c e)
      by (intros e; apply has_class_add_remove; exact Hc).
    assert (Hr : forall e, has_class c (remove_class "active" e) = has_class c e)
      by (intros e; apply has_class_add_remove; exact Hc).
    repeat match goal with
           | |- context [match ?x with Some _ => _ | None => _ end] => destruct x
           | |- context [if ?b then _ else _] => destruct b
           end; rewrite ?Ha, ?Hr, ?Ha, ?Hr, ?Ha, ?Hr; reflexivity.
Qed.

(** X20. One section at a time.  On a page where no navigation item is a
    section and the id named by the clicked item does not belong to a
    navigation item, a click on a navigation item leaves every element's
    id, attribute and classes other than [active] as they were; afterwards
    the clicked item is the only navigation item that is active, and a
    section is active exactly when it is the element [getElementById] finds
    for the item's [data-section] (so at most one section is, and none when
    the id is unknown). *)
Theorem navigate_shows_one_section (k : nat) (doc : list Element) (item : Element) :
  nth_error doc k = Some item ->
  has_class "nav-item" item = true ->
  (forall j el, nth_error doc j = Some el ->
                has_class "nav-item" el = true -> has_class "section" el = false) ->
  (forall j el, index_of_id (target_of item) doc = Some j -> nth_error doc j = Some el ->
                has_class "nav-item" el = false) ->
  List.length (navigate k doc) = List.length doc
  /\ forall j el,
       nth_error doc j = Some el ->
       exists el',
         nth_error (navigate k doc) j = Some el'
         /\ el_id el' = el_id el
         /\ data_section el' = data_section el
         /\ (forall c, c <> "active" -> has_class c el' = has_class c el)
         /\ (has_class "nav-item" el = true -> (has_class "active" el' = true <-> j = k))
         /\ (has_class "section" el = true ->
             (has_class "active" el' = true
              <-> index_of_id (target_of item) doc = Some j)).
Proof.
  intros Hk Hnav Hdisj Htarget. split; [apply length_navigate|].
  intros j el Hj. rewrite (navigate_nth k doc item Hk j), Hj. cbn [option_map].
  eexists. split; [reflexivity|].
  destruct (navigate_element_keeps k (index_of_id (target_of item) doc) j el)
    as (Hid & Hds & Hcl).
  split; [exact Hid|]. split; [exact Hds|]. split; [exact Hcl|].
  assert (Hsa : forall e, has_class "section" (add_class "active" e) = has_class "section" e)
    by (intros e; apply has_class_add_remove; discriminate).
  assert (Hsr : forall e, has_class "section" (remove_class "active" e) = has_class "section" e)
    by (intros e; apply has_class_add_remove; discriminate).
  assert (Haa : forall e, has_class "active" (add_class "active" e) = true)
    by (intros e; apply (has_class_add_remove "active" "active")).
  assert (Har : forall e, has_class "active" (remove_class "active" e) = false)
    by (intros e; apply (has_class_add_remove "active" "active")).
  split.
  - intros Hn. pose proof (Hdisj j el Hj Hn) as Hs.
    unfold navigate_element. cbv zeta. rewrite Hn.
    assert (Ht : forall j0, index_of_id (target_of item) doc = Some j0 -> Nat.eqb j j0 = false).
    { intros j0 E. apply Nat.eqb_neq. intros ->.
      rewrite (Htarget j0 el E Hj) in Hn. discriminate. }
    destruct (Nat.eqb_spec j k) as [->|Hne].
    + rewrite Hsa, Hsr, Hs.
      destruct (index_of_id (target_of item) doc) as [j0|];
        [rewrite (Ht j0 eq_refl)|]; rewrite Haa; split; auto.
    + rewrite Hsr, Hs.
      destruct (index_of_id (target_of item) doc) as [j0|];
        [rewrite (Ht j0 eq_refl)|]; rewrite Har; split; intros H;
        try discriminate; contradiction.
  - intros Hs.
    assert (Hn : has_class "nav-item" el = false).
    { destruct (has_class "nav-item" el) eqn:E; [|reflexivity].
      rewrite (Hdisj j el Hj E) in Hs. discriminate. }
    assert (Hjk : Nat.eqb j k = false).
    { apply Nat.eqb_neq. intros ->. rewrite Hk in Hj. injection Hj as ->.
      rewrite Hn in Hnav. discriminate. }
    unfold navigate_element. cbv zeta. rewrite Hn, Hjk, Hs.
    destruct (index_of_id (target_of item) doc) as [j0|].
    + destruct (Nat.eqb_spec j j0) as [->|Hne].
      * rewrite Haa. split; auto.
      * rewrite Har. split; intros H; [discriminate|]. injection H as ->. contradiction.
    + rewrite Har. split; intros H; discriminate.
Qed.

Lemma navigate_shows_one_section_witness :
  List.length (navigate 4 three_sections) = 6%nat.
Proof.
  apply (navigate_shows_one_section 4 three_sections
           (mkElement None ["nav-item"] (Some "music")) eq_refl eq_refl).
  - intros j el Hj Hn.
    do 6 (destruct j as [|j]; [injection Hj as <-; try reflexivity; discriminate Hn|]).
    destruct j; discriminate Hj.
  - intros j el E Hj. injection E as <-. injection Hj as <-. reflexivity.
Defined.

Example navigate_to_music :
  map (has_class "active") (navigate 4 three_sections)
  = [false; true; false; false; true; false].
Proof. reflexivity. Qed.
